(** * Conjoint-study helpers (skills/conjoint-study/helpers.py)

    A shallow embedding of the algorithmic part of the conjoint-study
    helper script: the profile enumerator [_all_profiles], the randomized
    design search [_generate_one_version] with its balance objective
    [_level_balance_score], the driver [generate_design], the counting
    estimator [_compute_utilities], the importance calculator
    [_compute_importance] and the logit market simulator [market_sim];
    further the directory-name helper [slugify], the profile distance
    [_profile_diff_count], the results parser [_parse_results_csv] and
    the segment analysis of [analyze].

    Modelling choices.
    - A Python [dict] of string keys whose equality matters (profiles are
      compared with [==], [!=] and [in]) is a [gmap string string]: its
      equality is the dict's equality, independent of insertion order.
    - The attribute specification and the utility table are ordered
      dicts, kept as association lists with unique keys.
    - Python's exceptions (and [sys.exit(1)]) are the [PyError] values of
      a result type; code that draws random numbers runs in a state and
      error monad over the state of Python's [random] module, whose
      operations are an interface with their documented contracts.
    - Float arithmetic is idealised: the balance score is computed exactly
      in [Q] (it only divides and multiplies), the estimator and the
      simulator, which call [math.log] and [math.exp], in [R].
    - Text ([slugify]'s input, the cells of the results file) is a Rocq
      [string], one [ascii] per code point: the model covers text whose
      code points are below 256, where [str.lower], [str.strip] and [\s]
      are given by the Latin-1 tables below. Option letters
      [chr(ord("a") + i)] stay in that range for [profiles_per_task] up
      to 159.
    - The results file is seen through the rows [csv.DictReader] yields
      for a file whose records have as many fields as its header. *)

From Stdlib Require Import Reals QArith Qpower ZArith Lra Permutation Ascii String.
From stdpp Require Import base gmap strings list fin_maps sorting pretty.

Open Scope Z_scope.

(* ================================================================== *)
(** ** Data model *)

Abbreviation Profile := (gmap string string).
Abbreviation AttrSpec := (list (string * list string)).
Abbreviation ChoiceTask := (list Profile).

(** Exceptions the code can raise; [SystemExit 1] is [sys.exit(1)]. *)
Inductive PyError :=
| SystemExit (code : Z)
| ValueError
| IndexError
| KeyError
| ZeroDivisionError
| TypeError.

Inductive result (A : Type) :=
| Ok (a : A)
| Err (e : PyError).
Arguments Ok {A} a.
Arguments Err {A} e.

Definition rbind {A B} (c : result A) (k : A -> result B) : result B :=
  match c with Ok a => k a | Err e => Err e end.

Notation "'let?' x ':=' c 'in' k" := (rbind c (fun x => k))
  (at level 200, x name, c at level 100, k at level 200).

(* ================================================================== *)
(** ** Profile enumerator: [_all_profiles] *)

(** [itertools.product] over the pools, as CPython documents it:
    [result = [[]]; for pool in pools: result = [x+[y] for x in result
    for y in pool]]. *)
Definition py_product (pools : list (list string)) : list (list string) :=
  fold_left (fun res pool => flat_map (fun x => map (fun y => x ++ [y]) pool) res)
    pools [[]].

(** [dict(pairs)]: later pairs overwrite earlier ones. *)
Definition dict_of_pairs (kvs : list (string * string)) : Profile :=
  fold_left (fun (m : Profile) kv => <[kv.1 := kv.2]> m) kvs ∅.

(** [_all_profiles(attributes)]: [dict(zip(names, combo))] for every
    [combo] of the product of the level lists. *)
Definition all_profiles (attributes : AttrSpec) : list Profile :=
  let names := map fst attributes in
  let level_lists := map snd attributes in
  map (fun combo => dict_of_pairs (zip names combo)) (py_product level_lists).

(** The order the spec describes: nested iteration over the attributes in
    specification order, the first attribute outermost, each over its
    levels in their given order; each assignment is a list of
    attribute/level pairs. *)
Fixpoint nested_assignments (attributes : AttrSpec) : list (list (string * string)) :=
  match attributes with
  | [] => [[]]
  | (a, levels) :: rest =>
      flat_map (fun l => map (cons (a, l)) (nested_assignments rest)) levels
  end.

(** Product of the pools, first pool outermost. *)
Fixpoint product_right (pools : list (list string)) : list (list string) :=
  match pools with
  | [] => [[]]
  | pool :: rest => flat_map (fun y => map (cons y) (product_right rest)) pool
  end.

Definition level_count_product (attributes : AttrSpec) : nat :=
  fold_right Nat.mul 1%nat (map (fun a => length a.2) attributes).

(* ================================================================== *)
(** ** Balance scorer: [_level_balance_score] *)

(** A left fold whose step can raise. *)
Fixpoint rfold_left {A B} (f : A -> B -> result A) (l : list B) (a : A) : result A :=
  match l with
  | [] => Ok a
  | x :: l' => let? a' := f a x in rfold_left f l' a'
  end.

(** One iteration of the inner loops:
    [counts[profile[attr_name]] += 1; total += 1]; [profile[attr_name]]
    raises [KeyError] when the profile lacks the attribute. *)
Definition count_profile (attr_name : string) (acc : gmap string Z * Z)
    (profile : Profile) : result (gmap string Z * Z) :=
  let '(counts, total) := acc in
  match profile !! attr_name with
  | None => Err KeyError
  | Some lv => Ok (<[lv := default 0 (counts !! lv) + 1]> counts, total + 1)
  end.

(** [for cs in choice_sets: for profile in cs: ...], from an empty
    [Counter] and [total = 0]. *)
Definition count_attr (attr_name : string) (choice_sets : list ChoiceTask)
    : result (gmap string Z * Z) :=
  rfold_left (fun acc cs => rfold_left (count_profile attr_name) cs acc)
    choice_sets (∅, 0).

(** [(obs - expected) ** 2 / expected if expected > 0 else 0] *)
Definition balance_term (obs expected : Q) : Q :=
  if Qlt_le_dec 0 expected then ((obs - expected) ^ 2 / expected)%Q else 0%Q.

(** The body of the loop over [attributes.items()]. *)
Definition balance_attr_step (choice_sets : list ChoiceTask) (score : Q)
    (attr : string * list string) : result Q :=
  let (attr_name, levels) := attr in
  let? ct := count_attr attr_name choice_sets in
  let (counts, total) := ct in
  let expected : Q :=
    match levels with
    | [] => 1%Q
    | _ => (inject_Z total / inject_Z (Z.of_nat (length levels)))%Q
    end in
  Ok (fold_left
        (fun (score : Q) (level : string) =>
           (score + balance_term (inject_Z (default 0%Z (counts !! level))) expected)%Q)
        levels score).

(** [_level_balance_score(choice_sets, attributes)], from [score = 0.0]. *)
Definition level_balance_score (choice_sets : list ChoiceTask)
    (attributes : AttrSpec) : result Q :=
  rfold_left (balance_attr_step choice_sets) attributes 0%Q.

(** The score as the spec words it: for each attribute and each of its
    levels, with [observed] the number of profile slots (over all tasks)
    showing that level and [expected] the number of slots divided by the
    number of levels, add [(observed - expected)^2 / expected], skipping
    levels whose expected count is zero. *)
Definition observed_slots (choice_sets : list ChoiceTask) (attr level : string) : nat :=
  length (filter (fun p : Profile => p !! attr = Some level) (concat choice_sets)).

Definition expected_slots (choice_sets : list ChoiceTask) (levels : list string) : Q :=
  (inject_Z (Z.of_nat (length (concat choice_sets))) / inject_Z (Z.of_nat (length levels)))%Q.

Definition spec_level_term (o e : Q) : Q :=
  if Qlt_le_dec 0 e then ((o - e) * (o - e) / e)%Q else 0%Q.

Definition balance_spec_attr (choice_sets : list ChoiceTask) (attr : string * list string) : Q :=
  let (a, levels) := attr in
  fold_right
    (fun l acc =>
       spec_level_term (inject_Z (Z.of_nat (observed_slots choice_sets a l)))
         (expected_slots choice_sets levels) + acc)%Q
    0%Q levels.

Definition balance_spec (choice_sets : list ChoiceTask) (attributes : AttrSpec) : Q :=
  fold_right (fun attr acc => (balance_spec_attr choice_sets attr + acc)%Q) 0%Q attributes.

(* ================================================================== *)
(** ** Ordered dicts with real values *)

Abbreviation UtilityTable := (list (string * list (string * R))).

(** [d[k]] as a lookup: the first (and, in a dict, only) entry for [k]. *)
Fixpoint dict_get {V} (k : string) (d : list (string * V)) : option V :=
  match d with
  | [] => None
  | (k', v) :: d' => if decide (k = k') then Some v else dict_get k d'
  end.

(** [d[k] = v]: an existing key keeps its position, a new key is
    appended. *)
Fixpoint dict_set {V} (k : string) (v : V) (d : list (string * V)) : list (string * V) :=
  match d with
  | [] => [(k, v)]
  | (k', v') :: d' => if decide (k = k') then (k, v) :: d' else (k', v') :: dict_set k v d'
  end.

(** Python's [sum] over a list of floats: a left fold from 0. *)
Definition py_sum (l : list R) : R := fold_left Rplus l 0%R.

(** [max(vals)] and [min(vals)] on a non-empty list. *)
Definition py_max (v : R) (vs : list R) : R := fold_left Rmax vs v.
Definition py_min (v : R) (vs : list R) : R := fold_left Rmin vs v.

(* ================================================================== *)
(** ** Utility estimator: [_compute_utilities] *)

Record ChoiceRecord := {
  rec_task : Z;
  chosen_profile : option Profile;   (* [None]: the "none" option *)
  agent_traits : gmap string string
}.

(** One iteration of [for attr_name in attributes]: [level =
    rec["chosen_profile"].get(attr_name)]; if it is not [None],
    [level_chosen[attr_name][level] += 1]. A missing entry of
    [level_chosen] is the empty [Counter] the comprehension creates. *)
Definition count_level (prof : Profile) (lc : gmap string (gmap string Z))
    (attr_name : string) : gmap string (gmap string Z) :=
  match prof !! attr_name with
  | None => lc
  | Some level =>
      let c := default ∅ (lc !! attr_name) in
      <[attr_name := <[level := default 0 (c !! level) + 1]> c]> lc
  end.

(** One iteration of [for rec in records]: skipped when the chosen
    profile is [None]. *)
Definition count_record (attributes : AttrSpec) (lc : gmap string (gmap string Z))
    (rec : ChoiceRecord) : gmap string (gmap string Z) :=
  match chosen_profile rec with
  | None => lc
  | Some prof => fold_left (count_level prof) (map fst attributes) lc
  end.

Definition count_chosen (records : list ChoiceRecord) (attributes : AttrSpec)
    : gmap string (gmap string Z) :=
  fold_left (count_record attributes) records ∅.

(** [level_chosen[attr_name].get(level, 0)] *)
Definition chosen_get (lc : gmap string (gmap string Z)) (attr_name level : string) : Z :=
  default 0 (default ∅ (lc !! attr_name) !! level).

(** [total_choices = sum(1 for r in records if r["chosen_profile"] is not None)] *)
Definition total_choices (records : list ChoiceRecord) : Z :=
  Z.of_nat (length (filter (fun r => is_Some (chosen_profile r)) records)).

(** The pre-centering value of one level. *)
Definition level_utility (chosen_count total : Z) (expected_share : R) : R :=
  if (0 <? total) && (0 <? chosen_count) then
    ln ((IZR chosen_count / IZR total) / expected_share)
  else (-2)%R.

(** The loop over [attributes.items()]: raises [ZeroDivisionError] at
    [1.0 / n_levels] for an attribute without levels. *)
Definition utilities_step (level_chosen : gmap string (gmap string Z)) (total : Z)
    (utilities : UtilityTable) (attr : string * list string) : result UtilityTable :=
  let (attr_name, levels) := attr in
  let n_levels := length levels in
  if decide (n_levels = 0%nat) then Err ZeroDivisionError else
  let expected_share := (1 / INR n_levels)%R in
  let attr_utils :=
    fold_left
      (fun au level =>
         dict_set level
           (level_utility (chosen_get level_chosen attr_name level) total expected_share) au)
      levels [] in
  let mean_util :=
    match attr_utils with
    | [] => 0%R
    | _ => (py_sum (map snd attr_utils) / INR (length attr_utils))%R
    end in
  let attr_utils := map (fun lu => (lu.1, (lu.2 - mean_util)%R)) attr_utils in
  Ok (dict_set attr_name attr_utils utilities).

(** [_compute_utilities(records, attributes)] *)
Definition compute_utilities (records : list ChoiceRecord) (attributes : AttrSpec)
    : result UtilityTable :=
  rfold_left (utilities_step (count_chosen records attributes) (total_choices records))
    attributes [].

(** The estimator as the spec words it. [chosen_count]: the records whose
    (non-null) chosen profile uses the level; [total_choices]: the records
    with a non-null chosen profile; [expected_share = 1 / n_levels]; the
    pre-centering utility is [ln (chosen_count / total_choices /
    expected_share)] when [chosen_count > 0] and [-2.0] otherwise; the
    attribute's mean is then subtracted from every level. *)
Definition chosen_count_spec (records : list ChoiceRecord) (a l : string) : Z :=
  Z.of_nat (length (filter (fun r => (chosen_profile r ≫= (fun p : Profile => p !! a)) = Some l)
                      records)).

Definition pre_centering_spec (records : list ChoiceRecord) (a : string) (n_levels : nat)
    (l : string) : R :=
  let cc := chosen_count_spec records a l in
  if 0 <? cc then ln ((IZR cc / IZR (total_choices records)) / (1 / INR n_levels))%R
  else (-2)%R.

Definition centered_spec (vals : list (string * R)) : list (string * R) :=
  let mean := (fold_right Rplus 0 (map snd vals) / INR (length vals))%R in
  map (fun lu => (lu.1, (lu.2 - mean)%R)) vals.

Definition utilities_spec (records : list ChoiceRecord) (attributes : AttrSpec) : UtilityTable :=
  map (fun al => (al.1, centered_spec
                          (map (fun l => (l, pre_centering_spec records al.1 (length al.2) l))
                               al.2)))
    attributes.

(* ================================================================== *)
(** ** Importance calculator: [_compute_importance] *)

Definition attr_range (attr_utils : list (string * R)) : R :=
  match map snd attr_utils with
  | [] => 0%R
  | v :: vs => (py_max v vs - py_min v vs)%R
  end.

(** [_compute_importance(utilities)] *)
Definition compute_importance (utilities : UtilityTable) : list (string * R) :=
  let ranges :=
    fold_left (fun rs (au : string * list (string * R)) => dict_set au.1 (attr_range au.2) rs)
      utilities [] in
  let total_range := py_sum (map snd ranges) in
  fold_left
    (fun imp (ar : string * R) =>
       dict_set ar.1 (if Rlt_dec 0 total_range then (ar.2 / total_range * 100)%R else 0%R) imp)
    ranges [].

(** The importance table as the spec words it: each attribute's range
    divided by the sum of all ranges, times 100, or 0 for every attribute
    when that sum is 0. *)
Definition importance_spec (utilities : UtilityTable) : list (string * R) :=
  let total := fold_right Rplus 0%R (map (fun au => attr_range au.2) utilities) in
  map (fun au => (au.1, if Rlt_dec 0 total then (attr_range au.2 / total * 100)%R else 0%R))
    utilities.

(* ================================================================== *)
(** ** Market simulator: [market_sim] *)

(** One item of [for attr_name, level in profile.items()]: add
    [utilities[attr_name][level]] when [attr_name in utilities and level
    in utilities[attr_name]]. *)
Definition profile_step (utilities : UtilityTable) (attr_name level : string) (total : R) : R :=
  match dict_get attr_name utilities with
  | Some au =>
      match dict_get level au with
      | Some u => (total + u)%R
      | None => total
      end
  | None => total
  end.

(** [total] of a profile, from [0.0]. *)
Definition profile_total (utilities : UtilityTable) (profile : Profile) : R :=
  map_fold (profile_step utilities) 0%R profile.

(** The logit step: subtract [max_util], exponentiate, normalise by the
    sum ([0] for every share when the sum is not positive). *)
Definition logit_shares (profile_utils : list R) : list R :=
  let max_util := match profile_utils with [] => 0%R | u :: us => py_max u us end in
  let exp_utils := map (fun u => exp (u - max_util)) profile_utils in
  let sum_exp := py_sum exp_utils in
  map (fun e => if Rlt_dec 0 sum_exp then (e / sum_exp)%R else 0%R) exp_utils.

(** [market_sim]: the printed rows (profile, total utility, choice share). *)
Definition market_sim (utilities : UtilityTable) (profiles : list Profile)
    : list (Profile * R * R) :=
  let profile_utils := map (profile_total utilities) profiles in
  zip (zip profiles profile_utils) (logit_shares profile_utils).

(* ================================================================== *)
(** ** Python's [random] module *)

(** The operations of [random] the search uses, over an abstract
    generator state [St]: [random.seed], [random.shuffle] (returning the
    shuffled list; the code shuffles fresh lists, or a task nobody else
    holds) and the [_randbelow] primitive underneath [randint]. *)
Class PyRandom (St : Type) := {
  py_seed : Z -> St;
  py_shuffle : list Profile -> St -> list Profile * St;
  py_randbelow : Z -> St -> Z * St
}.

(** The documented contracts: [shuffle] permutes its argument in place,
    [_randbelow(n)] returns an integer in [0 <= k < n] for [n > 0]. *)
Class PyRandomSpec (St : Type) `{PyRandom St} := {
  py_shuffle_perm : forall l st, (py_shuffle l st).1 ≡ₚ l;
  py_randbelow_range : forall n st, 0 < n -> 0 <= (py_randbelow n st).1 < n
}.

(** Computations that draw random numbers and may raise. *)
Definition M (St A : Type) : Type := St -> result (A * St).

Definition mret {St A} (a : A) : M St A := fun st => Ok (a, st).

Definition mbind {St A B} (c : M St A) (k : A -> M St B) : M St B :=
  fun st => match c st with Ok (a, st') => k a st' | Err e => Err e end.

Notation "'let!' x ':=' c 'in' k" := (mbind c (fun x => k))
  (at level 200, x name, c at level 100, k at level 200).

Definition lift {St A} (r : result A) : M St A :=
  fun st => match r with Ok a => Ok (a, st) | Err e => Err e end.

(** [random.seed(s)]: the new state does not depend on the old one. *)
Definition reseed `{PyRandom St} (s : Z) : M St unit :=
  fun _ => Ok (tt, py_seed s).

Definition shuffle `{PyRandom St} (l : list Profile) : M St (list Profile) :=
  fun st => Ok (py_shuffle l st).

(** [random.randint(a, b)] is [randrange(a, b + 1)], which raises
    [ValueError] on an empty range and otherwise returns
    [a + _randbelow(b + 1 - a)]. *)
Definition randint `{PyRandom St} (a b : Z) : M St Z :=
  fun st =>
    let width := b + 1 - a in
    if width <=? 0 then Err ValueError
    else let '(k, st') := py_randbelow width st in Ok (a + k, st').

(** [list.pop(i)], negative indices counting from the end. *)
Definition py_pop (l : list Profile) (i : Z) : result (Profile * list Profile) :=
  let n := Z.of_nat (length l) in
  let j := if i <? 0 then i + n else i in
  if (j <? 0) || (n <=? j) then Err IndexError
  else match l !! Z.to_nat j with
       | Some x => Ok (x, delete (Z.to_nat j) l)
       | None => Err IndexError
       end.

(* ================================================================== *)
(** ** Design search: [_profile_diff_count], [_generate_one_version] *)

(** [sum(1 for k in p1 if p1[k] != p2[k])]; [p2[k]] raises [KeyError]
    on a key of [p1] missing from [p2]. *)
Definition profile_diff_count (p1 p2 : Profile) : result Z :=
  map_fold (fun k v acc =>
              let? n := acc in
              match p2 !! k with
              | Some w => Ok (if decide (v = w) then n else n + 1)
              | None => Err KeyError
              end) (Ok 0) p1.

(** [all(_profile_diff_count(cand, t) >= min_diff for t in task)],
    stopping at the first failing [t]. *)
Fixpoint all_min_diff (min_diff : Z) (cand : Profile) (task : list Profile) : result bool :=
  match task with
  | [] => Ok true
  | t :: ts =>
      let? d := profile_diff_count cand t in
      if min_diff <=? d then all_min_diff min_diff cand ts else Ok false
  end.

(** The greedy pass over [candidates]. *)
Fixpoint fill_min_diff (profiles_per_task min_diff : Z) (task candidates : list Profile)
    : result (list Profile) :=
  match candidates with
  | [] => Ok task
  | cand :: cands =>
      if profiles_per_task <=? Z.of_nat (length task) then Ok task
      else
        let? ok := all_min_diff min_diff cand task in
        fill_min_diff profiles_per_task min_diff (if ok then task ++ [cand] else task) cands
  end.

(** The relaxed pass over [remaining]. *)
Fixpoint fill_any (profiles_per_task : Z) (task remaining : list Profile) : list Profile :=
  match remaining with
  | [] => task
  | cand :: rest =>
      if profiles_per_task <=? Z.of_nat (length task) then task
      else fill_any profiles_per_task (task ++ [cand]) rest
  end.

Section Search.
Context `{PyRandom St}.
Variables (profiles : list Profile) (attributes : AttrSpec)
  (n_tasks profiles_per_task min_diff : Z).

(** One pass of the task loop: returns the task and the new [available]. *)
Definition gen_task (available : list Profile) : M St (list Profile * list Profile) :=
  let! available := (match available with
                     | [] => shuffle profiles
                     | _ => mret available
                     end) in
  let! i := randint 0 (Z.of_nat (length available) - 1) in
  let! fa := lift (py_pop available i) in
  let '(first, available) := fa in
  let! candidates := shuffle (filter (fun p => p <> first) profiles) in
  let! task := lift (fill_min_diff profiles_per_task min_diff [first] candidates) in
  if Z.of_nat (length task) <? profiles_per_task then
    let! remaining := shuffle (filter (fun p => p ∉ task) profiles) in
    mret (fill_any profiles_per_task task remaining, available)
  else mret (task, available).

(** [for _ in range(n_tasks)], appending each task to [choice_sets]. *)
Fixpoint gen_tasks (k : nat) (available : list Profile) : M St (list ChoiceTask) :=
  match k with
  | O => mret []
  | S k =>
      let! ta := gen_task available in
      let! rest := gen_tasks k ta.2 in
      mret (ta.1 :: rest)
  end.

(** One attempt: a fresh shuffled pool, the tasks and their score. *)
Definition gen_attempt : M St (list ChoiceTask * Q) :=
  let! available := shuffle profiles in
  let! choice_sets := gen_tasks (Z.to_nat n_tasks) available in
  let! score := lift (level_balance_score choice_sets attributes) in
  mret (choice_sets, score).

(** [for _ in range(iterations)], keeping the attempt when
    [score < best_score]; [None] is the initial [(None, inf)]. *)
Fixpoint search_loop (k : nat) (best : option (list ChoiceTask * Q))
    : M St (option (list ChoiceTask * Q)) :=
  match k with
  | O => mret best
  | S k =>
      let! att := gen_attempt in
      let best' := match best with
                   | None => Some att
                   | Some (_, best_score) =>
                       if Qlt_le_dec att.2 best_score then Some att else best
                   end in
      search_loop k best'
  end.

Definition generate_one_version (iterations : Z) : M St (option (list ChoiceTask * Q)) :=
  search_loop (Z.to_nat iterations) None.

End Search.

(* ================================================================== *)
(** ** The driver: [generate_design] *)

(** [round(x, 4)] on the exact score: round half to even at the fourth
    decimal. *)
Definition py_round4 (x : Q) : Q :=
  let n := Qnum x * 10000 in
  let d := Zpos (Qden x) in
  let fl := n / d in
  let r := n mod d in
  let k := if 2 * r <? d then fl
           else if d <? 2 * r then fl + 1
           else if Z.even fl then fl else fl + 1 in
  Qmake k 10000.

(** The design specification file; an absent optional key is [None]. *)
Record DesignSpec := {
  spec_attributes : AttrSpec;
  spec_tasks_per_version : option Z;
  spec_profiles_per_task : option Z;
  spec_n_versions : option Z;
  spec_min_attribute_diff : option Z;
  spec_seed : option Z;
  spec_include_none : option bool
}.

(** One entry of [all_versions]. *)
Record DesignVersion := {
  version : Z;
  balance_score : Q;
  choice_sets : list ChoiceTask
}.

(** The [output] object written to the output file. *)
Record DesignOutput := {
  out_attributes : AttrSpec;
  out_n_tasks : Z;
  out_profiles_per_task : Z;
  out_n_versions : Z;
  out_include_none : bool;
  out_total_profiles : Z;
  out_versions : list DesignVersion
}.

(** [dict.get(key, default)]. *)
Definition get_or {A} (o : option A) (d : A) : A :=
  match o with Some a => a | None => d end.

(** [_generate_one_version] with its default [iterations=1000]. *)
Definition search_iterations : Z := 1000.

Section Driver.
Context `{PyRandom St}.

(** [for cs in choice_sets: random.shuffle(cs)]. *)
Fixpoint shuffle_all (css : list ChoiceTask) : M St (list ChoiceTask) :=
  match css with
  | [] => mret []
  | cs :: rest =>
      let! cs' := shuffle cs in
      let! rest' := shuffle_all rest in
      mret (cs' :: rest')
  end.

(** The body of [for v in range(n_versions)] after [random.seed(seed + v)];
    unpacking [None] (no attempt made) raises [TypeError]. *)
Definition build_version (profiles : list Profile) (attributes : AttrSpec)
    (n_tasks profiles_per_task min_diff v : Z) : M St DesignVersion :=
  let! best := generate_one_version profiles attributes n_tasks profiles_per_task
                 min_diff search_iterations in
  match best with
  | None => lift (Err TypeError)
  | Some (choice_sets, score) =>
      let! css := shuffle_all choice_sets in
      mret {| version := v + 1; balance_score := py_round4 score; choice_sets := css |}
  end.

Fixpoint versions_loop (profiles : list Profile) (attributes : AttrSpec)
    (n_tasks profiles_per_task min_diff seed : Z) (vs : list Z) : M St (list DesignVersion) :=
  match vs with
  | [] => mret []
  | v :: vs =>
      let! _u := reseed (seed + v) in
      let! dv := build_version profiles attributes n_tasks profiles_per_task min_diff v in
      let! rest := versions_loop profiles attributes n_tasks profiles_per_task min_diff seed vs in
      mret (dv :: rest)
  end.

(** [generate_design], from reading the spec to building [output]; the
    run starts right after [random.seed(seed)]. *)
Definition generate_design (spec : DesignSpec) : result DesignOutput :=
  let attributes := spec_attributes spec in
  let n_tasks := get_or (spec_tasks_per_version spec) 8 in
  let profiles_per_task := get_or (spec_profiles_per_task spec) 3 in
  let n_versions := get_or (spec_n_versions spec) 4 in
  let min_diff0 := get_or (spec_min_attribute_diff spec) 2 in
  let seed := get_or (spec_seed spec) 42 in
  let include_none := get_or (spec_include_none spec) false in
  let profiles := all_profiles attributes in
  if Z.of_nat (length profiles) <? profiles_per_task then Err (SystemExit 1)
  else
    let n_attrs := Z.of_nat (length attributes) in
    let min_diff := if n_attrs <? min_diff0 then Z.max 1 (n_attrs - 1) else min_diff0 in
    let vs := map Z.of_nat (seq 0 (Z.to_nat n_versions)) in
    match versions_loop profiles attributes n_tasks profiles_per_task min_diff seed vs
            (py_seed seed) with
    | Err e => Err e
    | Ok (all_versions, _) =>
        Ok {| out_attributes := attributes; out_n_tasks := n_tasks;
              out_profiles_per_task := profiles_per_task; out_n_versions := n_versions;
              out_include_none := include_none;
              out_total_profiles := Z.of_nat (length profiles);
              out_versions := all_versions |}
    end.

End Driver.

(** A small concrete generator for evaluating the driver on examples: a
    linear congruential state, [_randbelow(n)] as [state mod n] and
    [shuffle] as a rotation. It meets the contracts of [PyRandomSpec]. *)
Definition lcg_next (s : Z) : Z := (s * 1103515245 + 12345) mod 2147483648.

#[export] Instance lcg_random : PyRandom Z := {|
  py_seed s := s mod 2147483648;
  py_shuffle l s := let k := Z.to_nat (s mod 5) in (drop k l ++ take k l, lcg_next s);
  py_randbelow n s := (s mod n, lcg_next s)
|}.

(* ================================================================== *)
(** ** Example inputs *)

(** One respondent who chose the profile [{"y": "a"}]. *)
Definition one_choice : list ChoiceRecord :=
  [{| rec_task := 1; chosen_profile := Some {["y" := "a"]}; agent_traits := ∅ |}].

Definition example_attributes : AttrSpec :=
  [("price", ["low"; "high"]); ("brand", ["X"; "Y"; "Z"])].

Definition example_profile (price brand : string) : Profile :=
  <["price" := price]> (<["brand" := brand]> ∅).

(** Four two-profile tasks in which every price level fills four slots
    and every brand level two. *)
Definition balanced_tasks : list ChoiceTask :=
  [[example_profile "low" "X"; example_profile "high" "Y"];
   [example_profile "low" "Y"; example_profile "high" "X"];
   [example_profile "low" "X"; example_profile "high" "Y"];
   [example_profile "low" "Y"; example_profile "high" "X"]].

Definition balanced_attributes : AttrSpec :=
  [("price", ["low"; "high"]); ("brand", ["X"; "Y"])].

Definition example_utilities : UtilityTable :=
  [("price", [("low", 1%R); ("high", (-1)%R)]);
   ("brand", [("X", (1/2)%R); ("Y", 0%R); ("Z", (-1/2)%R)])].

(** A design file with three tasks of two profiles in two versions. *)
Definition example_design : DesignSpec := {|
  spec_attributes := example_attributes;
  spec_tasks_per_version := Some 3;
  spec_profiles_per_task := Some 2;
  spec_n_versions := Some 2;
  spec_min_attribute_diff := None;
  spec_seed := None;
  spec_include_none := None
|}.

(** A level listed twice: the enumerator yields each profile twice. *)
Definition repeated_level_design : DesignSpec := {|
  spec_attributes := [("x", ["a"; "a"]); ("y", ["p"; "q"])];
  spec_tasks_per_version := Some 1;
  spec_profiles_per_task := Some 3;
  spec_n_versions := Some 1;
  spec_min_attribute_diff := None;
  spec_seed := None;
  spec_include_none := None
|}.

(** Two profiles, two tasks of two profiles each. *)
Definition two_profile_design : DesignSpec := {|
  spec_attributes := [("x", ["a"; "b"])];
  spec_tasks_per_version := Some 2;
  spec_profiles_per_task := Some 2;
  spec_n_versions := Some 1;
  spec_min_attribute_diff := None;
  spec_seed := None;
  spec_include_none := None
|}.

(** An attribute without levels and [profiles_per_task = 0]. *)
Definition empty_level_design : DesignSpec := {|
  spec_attributes := [("x", [])];
  spec_tasks_per_version := None;
  spec_profiles_per_task := Some 0;
  spec_n_versions := None;
  spec_min_attribute_diff := None;
  spec_seed := None;
  spec_include_none := None
|}.

(* ================================================================== *)
(** ** Directory names: [slugify] *)

(** [c.isspace()] for a code point below 256: tab to carriage return,
    the separators 0x1c to 0x1f, space, NEL (0x85) and no-break space
    (0xa0); [\s] of a [str] pattern and [str.strip()] use this set. *)
Definition is_space (c : ascii) : bool :=
  let n := nat_of_ascii c in
  ((9 <=? n) && (n <=? 13))%nat || ((28 <=? n) && (n <=? 32))%nat
  || (n =? 133)%nat || (n =? 160)%nat.

(** [str.lower()] on a code point below 256: A-Z and the Latin-1
    capitals (0xc0 to 0xde but the multiplication sign 0xd7) move up by
    32; every other code point is its own lower case. *)
Definition py_lower_char (c : ascii) : ascii :=
  let n := nat_of_ascii c in
  if ((65 <=? n) && (n <=? 90))%nat || ((192 <=? n) && (n <=? 222) && negb (n =? 215))%nat
  then ascii_of_nat (n + 32) else c.

(** [a-z0-9] *)
Definition is_lower_alnum (c : ascii) : bool :=
  let n := nat_of_ascii c in ((97 <=? n) && (n <=? 122))%nat || ((48 <=? n) && (n <=? 57))%nat.

Definition is_dash (c : ascii) : bool := Ascii.eqb c "-"%char.

(** The characters [re.sub(r"[^a-z0-9\s-]", "", text)] keeps. *)
Definition slug_keep (c : ascii) : bool := is_lower_alnum c || is_space c || is_dash c.

Fixpoint drop_spaces (l : list ascii) : list ascii :=
  match l with
  | [] => []
  | c :: l' => if is_space c then drop_spaces l' else l
  end.

(** [str.strip()] *)
Definition py_strip (l : list ascii) : list ascii := rev (drop_spaces (rev (drop_spaces l))).

(** [re.sub(r"[\s]+", "-", text)]: every maximal run of whitespace
    becomes one dash; [in_run] says the previous character was
    whitespace. *)
Fixpoint collapse_spaces (in_run : bool) (l : list ascii) : list ascii :=
  match l with
  | [] => []
  | c :: l' =>
      if is_space c then
        if in_run then collapse_spaces true l' else "-"%char :: collapse_spaces true l'
      else c :: collapse_spaces false l'
  end.

(** [s[:m]], a negative [m] counting from the end. *)
Definition py_slice_upto {A} (l : list A) (m : Z) : list A :=
  if 0 <=? m then take (Z.to_nat m) l else take (Z.to_nat (Z.of_nat (length l) + m)) l.

Fixpoint after_first_dash (l : list ascii) : option (list ascii) :=
  match l with
  | [] => None
  | c :: l' => if is_dash c then Some l' else after_first_dash l'
  end.

(** [s.rsplit("-", 1)[0]]: what precedes the last dash, or all of [s]. *)
Definition rsplit_dash_head (l : list ascii) : list ascii :=
  match after_first_dash (rev l) with
  | None => l
  | Some r => rev r
  end.

(** [slugify(text, max_len)]; a [str] whose code points are below 256,
    one [ascii] per code point. *)
Definition slugify (text : string) (max_len : Z) : string :=
  let t := map py_lower_char (list_ascii_of_string text) in
  let t := filter (fun c => slug_keep c = true) t in
  let t := collapse_spaces false (py_strip t) in
  let t := if max_len <? Z.of_nat (length t) then rsplit_dash_head (py_slice_upto t max_len)
           else t in
  string_of_list_ascii t.

(** The characters a slug is made of. *)
Definition slug_char (c : ascii) : bool := is_lower_alnum c || is_dash c.

(* ================================================================== *)
(** ** Profile distance: [_profile_diff_count] *)

(** The value [_profile_diff_count(p1, p2)] is characterised by. *)
Definition diff_count_result (p1 p2 : Profile) : result Z :=
  if decide (map_Forall (fun k _ => is_Some (p2 !! k)) p1)
  then Ok (Z.of_nat (size (filter (fun kv : string * string => p2 !! kv.1 <> Some kv.2) p1)))
  else Err KeyError.

(* ================================================================== *)
(** ** Level counts of the estimator *)

(** How often [count_level] counts level [l] of [a]: once per occurrence
    of [a] among the names, when the profile has [l] for [a]. *)
Definition level_weight (names : list string) (a l : string) (prof : Profile) : Z :=
  Z.of_nat (length (filter (fun n => n = a) names)) * (if decide (prof !! a = Some l) then 1 else 0).

(* ================================================================== *)
(** ** Segment analysis of [analyze] *)

(** [groups[val].append(rec)] on a [collections.defaultdict(list)]: an
    existing key keeps its position, a new key is appended. *)
Fixpoint dict_append {V} (k : string) (v : V) (d : list (string * list V))
    : list (string * list V) :=
  match d with
  | [] => [(k, [v])]
  | (k', vs) :: d' =>
      if decide (k = k') then (k', vs ++ [v]) :: d' else (k', vs) :: dict_append k v d'
  end.

(** [rec.get("agent_traits", {}).get(trait, "unknown")] *)
Definition trait_value (trait : string) (rec : ChoiceRecord) : string :=
  default "unknown" (agent_traits rec !! trait).

(** The [groups] of one trait in [analyze]. *)
Definition segment_groups (trait : string) (records : list ChoiceRecord)
    : list (string * list ChoiceRecord) :=
  fold_left (fun groups rec => dict_append (trait_value trait rec) rec groups) records [].

(** Python's order on [str]: lexicographic on code points. *)
Definition str_le (s1 s2 : string) : Prop := String.compare s1 s2 <> Gt.

#[export] Instance str_le_dec : RelDecision str_le.
Proof. intros s1 s2. unfold str_le. apply _. Defined.

(** [sorted(segment_traits)], [segment_traits] the union of the records'
    trait names. *)
Definition segment_traits (records : list ChoiceRecord) : list string :=
  merge_sort str_le
    (elements (⋃ (map (fun rec => dom (agent_traits rec)) records) : gset string)).

(** [[f(x) for x in xs]] for a fallible [f]: the first error is raised. *)
Fixpoint rmap {A B} (f : A -> result B) (l : list A) : result (list B) :=
  match l with
  | [] => Ok []
  | x :: l' => let? y := f x in let? ys := rmap f l' in Ok (y :: ys)
  end.

(** One group's entry: utilities, importance (computed from a second call
    of [_compute_utilities]) and [n_observations]. *)
Definition group_result (attributes : AttrSpec) (g : string * list ChoiceRecord)
    : result (string * (UtilityTable * list (string * R) * Z)) :=
  let (group_val, group_records) := g in
  let? utils := compute_utilities group_records attributes in
  let? utils' := compute_utilities group_records attributes in
  Ok (group_val, (utils, compute_importance utils', Z.of_nat (length group_records))).

(** [segment_results] of [analyze]. *)
Definition segment_results (records : list ChoiceRecord) (attributes : AttrSpec)
    : result (list (string * list (string * (UtilityTable * list (string * R) * Z)))) :=
  rmap (fun trait =>
          let? trait_results := rmap (group_result attributes) (segment_groups trait records) in
          Ok (trait, trait_results))
    (segment_traits records).

(* ================================================================== *)
(** ** Results parser: [_parse_results_csv] *)

(** A row of [csv.DictReader] on a file whose records have as many
    fields as the header: each column name, once, with its text, in
    column order. *)
Abbreviation CsvRow := (list (string * string)).

(** The keys [_parse_results_csv] reads from the design file. *)
Record ResultsSpec := {
  rs_attributes : AttrSpec;
  rs_n_tasks : option Z;
  rs_tasks_per_version : option Z;
  rs_profiles_per_task : option Z;
  rs_include_none : option bool
}.

(** [str.strip()] and [str.lower()] on a [str] whose code points are
    below 256. *)
Definition str_strip (s : string) : string :=
  string_of_list_ascii (py_strip (list_ascii_of_string s)).
Definition str_lower (s : string) : string :=
  string_of_list_ascii (map py_lower_char (list_ascii_of_string s)).

(** [needle in hay] on strings. *)
Fixpoint str_contains (needle hay : string) : bool :=
  String.prefix needle hay ||
  match hay with
  | EmptyString => false
  | String _ hay' => str_contains needle hay'
  end.

(** [for idx, x in enumerate(l): if f(x): ...; break] *)
Fixpoint first_index {A} (f : A -> bool) (l : list A) : option nat :=
  match l with
  | [] => None
  | x :: l' => if f x then Some 0%nat else option_map S (first_index f l')
  end.

(** [chr(ord(c) + i)] for a result below 256. *)
Definition chr_add (c : ascii) (i : nat) : ascii := ascii_of_nat (nat_of_ascii c + i).

(** [option_labels]: ["A", "B", ...] for [range(profiles_per_task)]. *)
Definition option_labels (profiles_per_task : Z) : list string :=
  map (fun i => String (chr_add "A" i) EmptyString) (seq 0 (Z.to_nat profiles_per_task)).

(** The [agent_traits] of a row: every column [agent.<name>] as trait
    [<name>]. *)
Definition row_agent_traits (row : CsvRow) : gmap string string :=
  fold_left
    (fun traits (kv : string * string) =>
       if String.prefix "agent." kv.1
       then <[String.substring 6 (String.length kv.1 - 6) kv.1 := kv.2]> traits
       else traits)
    row ∅.

(** [f"answer.choice_task_{t}"] *)
Definition answer_column (t : Z) : string := String.append "answer.choice_task_" (pretty t).

(** [f"scenario.task_{t}_opt_{opt_key}_{attr_name}"] *)
Definition scenario_column (t : Z) (opt_key : ascii) (attr_name : string) : string :=
  String.append "scenario.task_"
    (String.append (pretty t)
       (String.append "_opt_" (String opt_key (String.append "_" attr_name)))).

(** The chosen profile: [chosen_profile[attr_name] = row[col]] for every
    attribute whose column is in the row. *)
Definition row_profile (attributes : AttrSpec) (row : CsvRow) (t : Z) (opt_key : ascii)
    : Profile :=
  fold_left
    (fun prof attr_name =>
       match dict_get (scenario_column t opt_key attr_name) row with
       | Some v => <[attr_name := v]> prof
       | None => prof
       end)
    (map fst attributes) ∅.

(** One iteration of [for t in range(1, n_tasks + 1)]: the record it
    appends, if any. *)
Definition task_record (attributes : AttrSpec) (include_none : bool) (labels : list string)
    (row : CsvRow) (traits : gmap string string) (t : Z) : option ChoiceRecord :=
  let answer := str_strip (default "" (dict_get (answer_column t) row)) in
  if String.eqb answer "" then None else
  if include_none && String.prefix "none" (str_lower answer) then
    Some {| rec_task := t; chosen_profile := None; agent_traits := traits |}
  else
    match first_index (fun label =>
                         str_contains (String.append "Option " label) answer
                         || String.eqb answer (String.append "Option " label)) labels with
    | None => None
    | Some chosen_idx =>
        let prof := row_profile attributes row t (chr_add "a" chosen_idx) in
        if decide (prof = ∅) then None
        else Some {| rec_task := t; chosen_profile := Some prof; agent_traits := traits |}
    end.

(** [range(1, n_tasks + 1)] *)
Definition task_numbers (n_tasks : Z) : list Z :=
  map (fun i => Z.of_nat i + 1) (seq 0 (Z.to_nat n_tasks)).

(** [_parse_results_csv(csv_path, design_spec)] on the rows of the file. *)
Definition parse_results_rows (spec : ResultsSpec) (rows : list CsvRow) : list ChoiceRecord :=
  let attributes := rs_attributes spec in
  let n_tasks := get_or (rs_n_tasks spec) (get_or (rs_tasks_per_version spec) 8) in
  let profiles_per_task := get_or (rs_profiles_per_task spec) 3 in
  let include_none := default false (rs_include_none spec) in
  let labels := option_labels profiles_per_task in
  concat (map (fun row =>
                 let traits := row_agent_traits row in
                 omap (task_record attributes include_none labels row traits)
                   (task_numbers n_tasks))
            rows).

(** A results file of one respondent: task 1 answered "Option B",
    task 2 "None of these". *)
Definition example_results_spec : ResultsSpec := {|
  rs_attributes := example_attributes; rs_n_tasks := Some 2; rs_tasks_per_version := None;
  rs_profiles_per_task := Some 2; rs_include_none := Some true |}.

Definition example_row : CsvRow :=
  [("agent.segment", "young"); ("answer.choice_task_1", " Option B ");
   ("answer.choice_task_2", "None of these");
   ("scenario.task_1_opt_a_price", "low"); ("scenario.task_1_opt_a_brand", "X");
   ("scenario.task_1_opt_b_price", "high"); ("scenario.task_1_opt_b_brand", "Y")].

(* ================================================================== *)
(** ** Proof automation *)

(** [NoDup] of a concrete list of distinct constants. *)
Ltac solve_nodup :=
  apply (bool_decide_unpack _); vm_compute; reflexivity.

(* ================================================================== *)
(** ** Lemmas on the enumerator *)

Section Enumerator.

Lemma flat_map_app_distr {A B} (f : A -> list B) (l1 l2 : list A) :
  flat_map f (l1 ++ l2) = flat_map f l1 ++ flat_map f l2.
Proof. induction l1 as [|x l1 IH]; simpl; [done|]. by rewrite IH, app_assoc. Qed.

Lemma flat_map_flat_map {A B C} (f : A -> list B) (g : B -> list C) (l : list A) :
  flat_map g (flat_map f l) = flat_map (fun x => flat_map g (f x)) l.
Proof.
  induction l as [|x l IH]; simpl; [done|]. by rewrite flat_map_app_distr, IH.
Qed.

Lemma flat_map_map {A B C} (f : A -> B) (g : B -> list C) (l : list A) :
  flat_map g (map f l) = flat_map (fun x => g (f x)) l.
Proof. induction l as [|x l IH]; simpl; [done|]. by rewrite IH. Qed.

Lemma map_flat_map {A B C} (f : A -> list B) (g : B -> C) (l : list A) :
  map g (flat_map f l) = flat_map (fun x => map g (f x)) l.
Proof. induction l as [|x l IH]; simpl; [done|]. by rewrite map_app, IH. Qed.

Lemma flat_map_ext' {A B} (f g : A -> list B) (l : list A) :
  (forall x, f x = g x) -> flat_map f l = flat_map g l.
Proof. intros H. induction l as [|x l IH]; simpl; [done|]. by rewrite H, IH. Qed.

Lemma py_product_fold pools res :
  fold_left (fun res pool => flat_map (fun x => map (fun y => x ++ [y]) pool) res)
    pools res
  = flat_map (fun x => map (fun z => x ++ z) (product_right pools)) res.
Proof.
  revert res. induction pools as [|pool pools IH]; intros res; simpl.
  - induction res as [|x res IHr]; simpl; [done|]. rewrite app_nil_r. f_equal. exact IHr.
  - rewrite IH, flat_map_flat_map. apply flat_map_ext'. intros x.
    rewrite flat_map_map, map_flat_map. apply flat_map_ext'. intros y.
    rewrite map_map. apply map_ext. intros z. by rewrite <- app_assoc.
Qed.

Lemma py_product_right pools : py_product pools = product_right pools.
Proof.
  unfold py_product. rewrite py_product_fold. simpl.
  rewrite app_nil_r. apply map_id.
Qed.

Lemma zip_product_nested attributes :
  map (zip (map fst attributes)) (product_right (map snd attributes))
  = nested_assignments attributes.
Proof.
  induction attributes as [|[a levels] rest IH]; simpl; [done|].
  rewrite map_flat_map. apply flat_map_ext'. intros l.
  rewrite map_map. rewrite <- IH, map_map. done.
Qed.

Lemma length_flat_map_const {A B} (f : A -> list B) (k : nat) (l : list A) :
  (forall x, length (f x) = k) -> length (flat_map f l) = (length l * k)%nat.
Proof.
  intros H. induction l as [|x l IH]; simpl; [done|].
  rewrite length_app, H, IH. lia.
Qed.

Lemma nested_assignments_length attributes :
  length (nested_assignments attributes) = level_count_product attributes.
Proof.
  induction attributes as [|[a levels] rest IH]; simpl; [done|].
  rewrite (length_flat_map_const _ (level_count_product rest)); [done|].
  intros l. by rewrite length_map, IH.
Qed.

Lemma nested_assignments_shape attributes kvs :
  In kvs (nested_assignments attributes) ->
  map fst kvs = map fst attributes /\
  (forall a levels, In (a, levels) attributes ->
     exists l, In (a, l) kvs /\ In l levels).
Proof.
  revert kvs. induction attributes as [|[a levels] rest IH]; intros kvs Hin; simpl in *.
  - destruct Hin as [<-|[]]. split; [done|]. intros ? ? [].
  - apply in_flat_map in Hin as (l & Hl & Hin).
    apply in_map_iff in Hin as (kvs' & <- & Hin).
    destruct (IH _ Hin) as [Hfst Hall]. split; [simpl; by rewrite Hfst|].
    intros a' levels' [[= <- <-]|Hr].
    + exists l. split; [left|]; done.
    + destruct (Hall _ _ Hr) as (l' & ? & ?). exists l'. split; [right|]; done.
Qed.

Lemma dict_of_pairs_notin kvs (m : Profile) k :
  ~ In k (map fst kvs) ->
  fold_left (fun (m : Profile) kv => <[kv.1 := kv.2]> m) kvs m !! k = m !! k.
Proof.
  revert m. induction kvs as [|[k' v'] kvs IH]; intros m Hk; simpl in *; [done|].
  rewrite IH; [|tauto]. rewrite lookup_insert_ne; [done|]. intros ->. tauto.
Qed.

Lemma dict_of_pairs_in kvs (m : Profile) k v :
  NoDup (map fst kvs) -> In (k, v) kvs ->
  fold_left (fun (m : Profile) kv => <[kv.1 := kv.2]> m) kvs m !! k = Some v.
Proof.
  revert m. induction kvs as [|[k' v'] kvs IH]; intros m Hnd Hin; simpl in *; [done|].
  apply NoDup_cons in Hnd as [Hk' Hnd].
  destruct Hin as [[= -> ->]|Hin].
  - rewrite dict_of_pairs_notin.
    + by rewrite lookup_insert_eq.
    + by intros ?%list_elem_of_In.
  - by apply IH.
Qed.

Lemma dict_of_pairs_dom kvs (m : Profile) k :
  is_Some (fold_left (fun (m : Profile) kv => <[kv.1 := kv.2]> m) kvs m !! k) <->
  In k (map fst kvs) \/ is_Some (m !! k).
Proof.
  revert m. induction kvs as [|[k' v'] kvs IH]; intros m; simpl; [tauto|].
  rewrite IH. destruct (decide (k' = k)) as [->|Hne].
  - rewrite lookup_insert_eq. split; [tauto|]. intros _. right. eauto.
  - rewrite lookup_insert_ne by done. split; [tauto|]. intros [[?|?]|?]; tauto.
Qed.

(** Every enumerated profile has exactly the specification's attribute
    names as keys (duplicates in the specification or not). *)
Lemma all_profiles_dom attributes p a :
  In p (all_profiles attributes) -> is_Some (p !! a) <-> In a (map fst attributes).
Proof.
  unfold all_profiles. rewrite py_product_right. intros Hp.
  apply in_map_iff in Hp as (combo & <- & Hc).
  destruct (nested_assignments_shape attributes (zip (map fst attributes) combo))
    as [Hfst _].
  { rewrite <- zip_product_nested. by apply in_map. }
  unfold dict_of_pairs. rewrite dict_of_pairs_dom, lookup_empty, Hfst.
  split; [intros [?|[? ?]]; [done|discriminate]|tauto].
Qed.

Lemma dict_of_pairs_fold_insert kvs (m : Profile) k v :
  ~ In k (map fst kvs) ->
  fold_left (fun (m : Profile) kv => <[kv.1 := kv.2]> m) kvs (<[k := v]> m)
  = <[k := v]> (fold_left (fun (m : Profile) kv => <[kv.1 := kv.2]> m) kvs m).
Proof.
  revert m. induction kvs as [|[k' v'] kvs IH]; intros m Hk; simpl in *; [done|].
  rewrite insert_insert_ne by (intros ->; tauto). apply IH. tauto.
Qed.

Lemma dict_of_pairs_cons k v kvs :
  ~ In k (map fst kvs) -> dict_of_pairs ((k, v) :: kvs) = <[k := v]> (dict_of_pairs kvs).
Proof. intros Hk. unfold dict_of_pairs. simpl. by rewrite <- dict_of_pairs_fold_insert. Qed.

(** With distinct keys, [dict(pairs)] determines the pairs among lists
    with the same keys in the same order. *)
Lemma dict_of_pairs_inj kvs1 kvs2 :
  map fst kvs1 = map fst kvs2 -> NoDup (map fst kvs1) ->
  dict_of_pairs kvs1 = dict_of_pairs kvs2 -> kvs1 = kvs2.
Proof.
  revert kvs2. induction kvs1 as [|[k v] kvs1 IH]; intros [|[k2 v2] kvs2] Hf Hnd Heq;
    simpl in *; try done.
  injection Hf as <- Hf. apply NoDup_cons in Hnd as [Hk Hnd].
  assert (Hk2 : ~ In k (map fst kvs2)) by (rewrite <- Hf; intros ?; apply Hk; by apply list_elem_of_In).
  assert (Hk1 : ~ In k (map fst kvs1)) by (intros ?; apply Hk; by apply list_elem_of_In).
  rewrite !dict_of_pairs_cons in Heq by done.
  assert (Hv : v = v2).
  { pose proof (f_equal (fun m : Profile => m !! k) Heq) as Hl. simpl in Hl.
    rewrite !lookup_insert_eq in Hl. congruence. }
  subst v2. f_equal. apply IH; [done|done|].
  apply map_eq. intros j. destruct (decide (j = k)) as [->|Hne].
  - unfold dict_of_pairs. rewrite !dict_of_pairs_notin by done. done.
  - pose proof (f_equal (fun m : Profile => m !! j) Heq) as Hl. simpl in Hl.
    by rewrite !lookup_insert_ne in Hl by congruence.
Qed.

Lemma nested_assignments_NoDup attributes :
  (forall a ls, In (a, ls) attributes -> NoDup ls) -> NoDup (nested_assignments attributes).
Proof.
  induction attributes as [|[a levels] rest IH]; intros Hwf; simpl.
  - apply NoDup_singleton.
  - assert (HN : NoDup (nested_assignments rest)) by (apply IH; intros; eapply Hwf; by right).
    assert (Hl : NoDup levels) by (eapply Hwf; by left).
    clear IH Hwf. induction levels as [|l levels IHl]; simpl; [constructor|].
    apply NoDup_cons in Hl as [Hl Hnd]. apply NoDup_app. split; [|split; [|by apply IHl]].
    + apply NoDup_fmap_2_strong; [|done]. by intros ? ? _ _ [= ->].
    + intros x Hx Hx'. apply list_elem_of_In in Hx, Hx'.
      apply in_map_iff in Hx as (y & <- & _).
      apply in_flat_map in Hx' as (l' & Hl' & Hx').
      apply in_map_iff in Hx' as (y' & [= <- _] & _).
      apply Hl. by apply list_elem_of_In.
Qed.

(** With distinct attribute names and distinct levels within each
    attribute, the enumerated profiles are pairwise distinct. *)
Lemma all_profiles_NoDup attributes :
  NoDup (map fst attributes) -> (forall a ls, In (a, ls) attributes -> NoDup ls) ->
  NoDup (all_profiles attributes).
Proof.
  intros Hnd Hwf.
  assert (Horder : all_profiles attributes
                   = map dict_of_pairs (nested_assignments attributes)).
  { unfold all_profiles. rewrite py_product_right, <- zip_product_nested, map_map. done. }
  rewrite Horder. apply NoDup_fmap_2_strong; [|by apply nested_assignments_NoDup].
  intros x y Hx Hy Hxy. apply list_elem_of_In in Hx, Hy.
  destruct (nested_assignments_shape _ _ Hx) as [Hfx _].
  destruct (nested_assignments_shape _ _ Hy) as [Hfy _].
  apply dict_of_pairs_inj; [congruence|by rewrite Hfx|done].
Qed.

End Enumerator.

(* ================================================================== *)
(** ** Profile enumerator *)

(** C4. [_all_profiles] returns the full Cartesian product of the level
    lists, in nested order (first attribute outermost, levels in their
    given order); its length is the product of the level counts; every
    profile maps exactly the specification's attributes, each to one of
    that attribute's levels. The function is pure: no randomness. *)
Theorem all_profiles_cartesian (attributes : AttrSpec) :
  NoDup (map fst attributes) ->
  all_profiles attributes = map dict_of_pairs (nested_assignments attributes) /\
  length (all_profiles attributes) = level_count_product attributes /\
  (forall p, In p (all_profiles attributes) ->
     (forall a, is_Some (p !! a) <-> In a (map fst attributes)) /\
     (forall a levels, In (a, levels) attributes ->
        exists l, p !! a = Some l /\ In l levels)).
Proof.
  intros Hnd.
  assert (Horder : all_profiles attributes
                   = map dict_of_pairs (nested_assignments attributes)).
  { unfold all_profiles. rewrite py_product_right, <- zip_product_nested, map_map.
    done. }
  split; [exact Horder|]. split.
  { by rewrite Horder, length_map, nested_assignments_length. }
  intros p Hp. rewrite Horder in Hp.
  apply in_map_iff in Hp as (kvs & <- & Hkvs).
  destruct (nested_assignments_shape _ _ Hkvs) as [Hfst Hall].
  assert (Hndk : NoDup (map fst kvs)) by (rewrite Hfst; exact Hnd).
  split.
  - intros a. rewrite <- Hfst. split.
    + intros Hs. destruct (in_dec (fun x y : string => decide (x = y)) a (map fst kvs)) as [Hin|Hnin]; [done|].
      unfold dict_of_pairs in Hs. rewrite dict_of_pairs_notin in Hs; [|done].
      rewrite lookup_empty in Hs. by destruct Hs.
    + intros Hin. apply in_map_iff in Hin as ([k v] & <- & Hin).
      exists v. by apply dict_of_pairs_in.
  - intros a levels Hin. destruct (Hall _ _ Hin) as (l & Hl & Hlv).
    exists l. split; [by apply dict_of_pairs_in|done].
Qed.

(* ================================================================== *)
(** ** Lemmas on the balance scorer *)

Section BalanceScore.

Lemma rfold_left_app {A B} (f : A -> B -> result A) l1 l2 a :
  rfold_left f (l1 ++ l2) a = rbind (rfold_left f l1 a) (rfold_left f l2).
Proof.
  revert a. induction l1 as [|x l1 IH]; intros a; simpl; [done|].
  destruct (f a x); simpl; [apply IH|done].
Qed.

Lemma rfold_left_concat {A B} (f : A -> B -> result A) (css : list (list B)) a :
  rfold_left (fun acc cs => rfold_left f cs acc) css a = rfold_left f (concat css) a.
Proof.
  revert a. induction css as [|cs css IH]; intros a; simpl; [done|].
  rewrite rfold_left_app. destruct (rfold_left f cs a); simpl; [apply IH|done].
Qed.

Lemma count_profiles_ok attr (ps : list Profile) counts total :
  (forall p, In p ps -> is_Some (p !! attr)) ->
  exists counts',
    rfold_left (count_profile attr) ps (counts, total)
      = Ok (counts', total + Z.of_nat (length ps)) /\
    forall lv, default 0 (counts' !! lv)
               = default 0 (counts !! lv)
                 + Z.of_nat (length (filter (fun p : Profile => p !! attr = Some lv) ps)).
Proof.
  revert counts total. induction ps as [|p ps IH]; intros counts total Hall; simpl.
  - exists counts. split; [f_equal; f_equal; lia|]. intros lv. simpl. lia.
  - destruct (Hall p (or_introl eq_refl)) as [v Hv]. rewrite Hv. simpl.
    destruct (IH (<[v := default 0 (counts !! v) + 1]> counts) (total + 1))
      as (counts' & Hrun & Hcnt); [intros q Hq; apply Hall; by right|].
    exists counts'. split; [rewrite Hrun; f_equal; f_equal; lia|].
    intros lv. rewrite Hcnt, filter_cons.
    destruct (decide (v = lv)) as [->|Hne].
    + rewrite lookup_insert_eq, decide_True by done. simpl. lia.
    + rewrite lookup_insert_ne by done.
      rewrite decide_False by congruence. done.
Qed.

Lemma count_attr_ok attr (choice_sets : list ChoiceTask) :
  (forall p, In p (concat choice_sets) -> is_Some (p !! attr)) ->
  exists counts,
    count_attr attr choice_sets = Ok (counts, Z.of_nat (length (concat choice_sets))) /\
    forall lv, default 0 (counts !! lv) = Z.of_nat (observed_slots choice_sets attr lv).
Proof.
  intros Hall. unfold count_attr. rewrite rfold_left_concat.
  destruct (count_profiles_ok attr (concat choice_sets) ∅ 0 Hall) as (c & Hrun & Hc).
  exists c. split; [exact Hrun|]. intros lv. rewrite Hc, lookup_empty. done.
Qed.

Lemma fold_left_Qsum {A} (f : A -> Q) (l : list A) (s : Q) :
  (fold_left (fun acc x => acc + f x) l s == s + fold_right (fun x acc => f x + acc) 0 l)%Q.
Proof.
  revert s. induction l as [|x l IH]; intros s; simpl; [ring|].
  rewrite IH. ring.
Qed.

Lemma Qsquare_mult (a : Q) : (a ^ 2 == a * a)%Q.
Proof. simpl. reflexivity. Qed.

Lemma balance_term_spec (o e : Q) : (balance_term o e == spec_level_term o e)%Q.
Proof.
  unfold balance_term, spec_level_term. destruct (Qlt_le_dec 0 e); [|reflexivity].
  rewrite Qsquare_mult. reflexivity.
Qed.

Lemma balance_term_nonneg (o e : Q) : (0 <= balance_term o e)%Q.
Proof.
  unfold balance_term. destruct (Qlt_le_dec 0 e) as [He|He]; [|apply Qle_refl].
  apply Qle_shift_div_l; [exact He|]. rewrite Qmult_0_l. apply Qsqr_nonneg.
Qed.

Lemma balance_term_exact (o e : Q) : (o == e)%Q -> (balance_term o e == 0)%Q.
Proof.
  intros Ho. unfold balance_term. destruct (Qlt_le_dec 0 e); [|reflexivity].
  rewrite Ho. unfold Qminus. rewrite Qplus_opp_r. simpl. unfold Qdiv. apply Qmult_0_l.
Qed.

Lemma Qsum_ext {A} (f g : A -> Q) (l : list A) :
  (forall x, In x l -> f x == g x)%Q ->
  (fold_right (fun x acc => f x + acc) 0 l == fold_right (fun x acc => g x + acc) 0 l)%Q.
Proof.
  induction l as [|x l IH]; intros H; simpl; [reflexivity|].
  rewrite (H x (or_introl eq_refl)), IH; [reflexivity|]. intros y Hy. apply H. by right.
Qed.

Lemma Qsum_nonneg {A} (f : A -> Q) (l : list A) :
  (forall x, In x l -> 0 <= f x)%Q -> (0 <= fold_right (fun x acc => f x + acc) 0 l)%Q.
Proof.
  induction l as [|x l IH]; intros H; simpl; [apply Qle_refl|].
  rewrite <- (Qplus_0_l 0) at 1. apply Qplus_le_compat; [apply H; by left|].
  apply IH. intros y Hy. apply H. by right.
Qed.

Lemma Qsum_zero {A} (f : A -> Q) (l : list A) :
  (forall x, In x l -> f x == 0)%Q -> (fold_right (fun x acc => f x + acc) 0 l == 0)%Q.
Proof.
  induction l as [|x l IH]; intros H; simpl; [reflexivity|].
  rewrite (H x (or_introl eq_refl)), IH; [reflexivity|]. intros y Hy. apply H. by right.
Qed.

Lemma balance_attr_step_ok (choice_sets : list ChoiceTask) (acc : Q) a levels :
  (forall p, In p (concat choice_sets) -> is_Some (p !! a)) ->
  exists s, balance_attr_step choice_sets acc (a, levels) = Ok s /\
            (s == acc + balance_spec_attr choice_sets (a, levels))%Q.
Proof.
  intros Hwf. destruct (count_attr_ok a choice_sets Hwf) as (counts & Hrun & Hcnt).
  unfold balance_attr_step. rewrite Hrun. simpl.
  eexists. split; [reflexivity|]. rewrite fold_left_Qsum.
  apply Qplus_inj_l. apply Qsum_ext. intros l Hl.
  rewrite Hcnt, balance_term_spec. destruct levels as [|l0 ls]; [done|]. reflexivity.
Qed.

Lemma level_balance_fold_ok (choice_sets : list ChoiceTask) (attributes : AttrSpec) acc :
  (forall p a, In p (concat choice_sets) -> In a (map fst attributes) -> is_Some (p !! a)) ->
  exists s, rfold_left (balance_attr_step choice_sets) attributes acc = Ok s /\
            (s == acc + balance_spec choice_sets attributes)%Q.
Proof.
  revert acc. induction attributes as [|[a levels] rest IH]; intros acc Hwf.
  - exists acc. split; [done|]. simpl. ring.
  - destruct (balance_attr_step_ok choice_sets acc a levels) as (s1 & Hs1 & Heq1).
    { intros p Hp. apply Hwf; [done|by left]. }
    change (rfold_left (balance_attr_step choice_sets) ((a, levels) :: rest) acc)
      with (rbind (balance_attr_step choice_sets acc (a, levels))
                  (rfold_left (balance_attr_step choice_sets) rest)).
    change (balance_spec choice_sets ((a, levels) :: rest))
      with (balance_spec_attr choice_sets (a, levels) + balance_spec choice_sets rest)%Q.
    rewrite Hs1. simpl rbind.
    destruct (IH s1) as (s & Hs & Heq); [intros p a' Hp Ha'; apply Hwf; [done|by right]|].
    exists s. split; [exact Hs|]. rewrite Heq, Heq1. ring.
Qed.

Lemma spec_level_term_nonneg (o e : Q) : (0 <= spec_level_term o e)%Q.
Proof. rewrite <- balance_term_spec. apply balance_term_nonneg. Qed.

End BalanceScore.

(* ================================================================== *)
(** ** Balance scorer *)

(** C3. On choice sets whose profiles all have every attribute of the
    specification, [_level_balance_score] returns the sum over attributes
    and levels of [(observed - expected)^2 / expected] ([observed]: the
    level's count over all profile slots of all tasks; [expected]: the
    number of slots over the number of levels; levels with zero expected
    count skipped). The score is non-negative, and it is 0 whenever every
    level of every attribute is observed exactly the expected number of
    times. *)
Theorem level_balance_score_spec (choice_sets : list ChoiceTask) (attributes : AttrSpec) :
  (forall p a, In p (concat choice_sets) -> In a (map fst attributes) -> is_Some (p !! a)) ->
  exists score,
    level_balance_score choice_sets attributes = Ok score /\
    (score == balance_spec choice_sets attributes)%Q /\
    (0 <= score)%Q /\
    ((forall a levels l, In (a, levels) attributes -> In l levels ->
        inject_Z (Z.of_nat (observed_slots choice_sets a l)) == expected_slots choice_sets levels) ->
     score == 0)%Q.
Proof.
  intros Hwf. destruct (level_balance_fold_ok choice_sets attributes 0%Q Hwf) as (s & Hs & Heq).
  rewrite Qplus_0_l in Heq.
  exists s. split; [exact Hs|]. split; [exact Heq|]. split.
  - rewrite Heq. apply Qsum_nonneg. intros [a levels] _. simpl.
    apply Qsum_nonneg. intros l _. apply spec_level_term_nonneg.
  - intros Hexact. rewrite Heq. apply Qsum_zero. intros [a levels] Hal. simpl.
    apply Qsum_zero. intros l Hl. rewrite <- balance_term_spec.
    apply balance_term_exact. exact (Hexact a levels l Hal Hl).
Qed.

(* ================================================================== *)
(** ** Lemmas on the estimator *)

Section Utilities.

Lemma dict_set_new {V} k (v : V) (d : list (string * V)) :
  ~ In k (map fst d) -> dict_set k v d = d ++ [(k, v)].
Proof.
  induction d as [|[k' v'] d IH]; intros Hk; simpl in *; [done|].
  rewrite decide_False by (intros ->; tauto). rewrite IH; [done|tauto].
Qed.

Lemma fold_dict_set_fresh {V} (f : string -> V) (ks : list string) (d : list (string * V)) :
  NoDup ks -> (forall k, In k ks -> ~ In k (map fst d)) ->
  fold_left (fun d k => dict_set k (f k) d) ks d = d ++ map (fun k => (k, f k)) ks.
Proof.
  revert d. induction ks as [|k ks IH]; intros d Hnd Hfresh; simpl; [by rewrite app_nil_r|].
  apply NoDup_cons in Hnd as [Hk Hnd].
  rewrite dict_set_new by (apply Hfresh; by left).
  rewrite IH; [by rewrite <- app_assoc|done|].
  intros k' Hk'. rewrite map_app. simpl. intros [Hin|[<-|[]]]%in_app_or.
  - by apply (Hfresh k'); [right|].
  - apply Hk. by apply list_elem_of_In.
Qed.

Lemma chosen_get_count_level_notin prof names lc a l :
  ~ In a names ->
  chosen_get (fold_left (count_level prof) names lc) a l = chosen_get lc a l.
Proof.
  revert lc. induction names as [|n names IH]; intros lc Ha; simpl; [done|].
  rewrite IH; [|intros ?; apply Ha; by right]. unfold count_level, chosen_get.
  destruct (prof !! n); [|done]. rewrite lookup_insert_ne; [done|].
  intros ->. apply Ha. by left.
Qed.

Lemma chosen_get_count_level_in prof names lc a l :
  NoDup names -> In a names ->
  chosen_get (fold_left (count_level prof) names lc) a l
  = chosen_get lc a l + (if decide (prof !! a = Some l) then 1 else 0).
Proof.
  revert lc. induction names as [|n names IH]; intros lc Hnd Ha; [done|].
  apply NoDup_cons in Hnd as [Hn Hnd]. simpl.
  destruct Ha as [->|Ha].
  - rewrite chosen_get_count_level_notin by (intros ?; apply Hn; by apply list_elem_of_In).
    unfold count_level, chosen_get. destruct (prof !! a) as [lv|] eqn:Hlv.
    + rewrite lookup_insert_eq. simpl. destruct (decide (lv = l)) as [->|Hne].
      * rewrite lookup_insert_eq, decide_True by done. simpl. lia.
      * rewrite lookup_insert_ne by done. rewrite decide_False by congruence. lia.
    + rewrite decide_False by done. lia.
  - rewrite IH by done. unfold count_level, chosen_get.
    assert (a <> n) by (intros ->; apply Hn; by apply list_elem_of_In).
    destruct (prof !! n); [|done]. rewrite lookup_insert_ne by congruence. done.
Qed.

Lemma count_chosen_get (records : list ChoiceRecord) attributes lc a l :
  NoDup (map fst attributes) -> In a (map fst attributes) ->
  chosen_get (fold_left (count_record attributes) records lc) a l
  = chosen_get lc a l + chosen_count_spec records a l.
Proof.
  intros Hnd Ha. revert lc. unfold chosen_count_spec.
  induction records as [|r records IH]; intros lc; simpl; [lia|].
  rewrite IH, filter_cons. unfold count_record.
  destruct (chosen_profile r) as [prof|] eqn:Hr; simpl.
  - rewrite chosen_get_count_level_in by done.
    destruct (decide (prof !! a = Some l)); simpl; lia.
  - lia.
Qed.

Lemma chosen_count_le_total records a l :
  (chosen_count_spec records a l <= total_choices records)%Z.
Proof.
  unfold chosen_count_spec, total_choices. apply inj_le.
  induction records as [|r records IH]; simpl; [lia|].
  rewrite !filter_cons.
  destruct (chosen_profile r) as [p|]; simpl.
  - try rewrite decide_True by done.
    destruct (decide (p !! a = Some l)); simpl; lia.
  - lia.
Qed.

Lemma fold_left_Rplus (l : list R) (a : R) :
  fold_left Rplus l a = (a + fold_right Rplus 0 l)%R.
Proof.
  revert a. induction l as [|x l IH]; intros a; simpl; [lra|]. rewrite IH. lra.
Qed.

Lemma level_utility_spec records attributes (a : string) (ls : list string) l :
  NoDup (map fst attributes) -> In a (map fst attributes) -> ls <> [] ->
  level_utility (chosen_get (count_chosen records attributes) a l) (total_choices records)
    (1 / INR (length ls))
  = pre_centering_spec records a (length ls) l.
Proof.
  intros Hnd Ha Hls. unfold count_chosen.
  rewrite count_chosen_get by done.
  unfold chosen_get at 1. rewrite lookup_empty. simpl. rewrite lookup_empty. simpl.
  rewrite Z.add_0_l. unfold level_utility, pre_centering_spec.
  pose proof (chosen_count_le_total records a l).
  destruct (Z.ltb_spec 0 (chosen_count_spec records a l)).
  - rewrite (proj2 (Z.ltb_lt 0 (total_choices records))) by lia.
    done.
  - by rewrite andb_false_r.
Qed.

Lemma utilities_step_spec records attributes acc a ls :
  NoDup (map fst attributes) -> In (a, ls) attributes -> ls <> [] -> NoDup ls ->
  ~ In a (map fst acc) ->
  utilities_step (count_chosen records attributes) (total_choices records) acc (a, ls)
  = Ok (acc ++ [(a, centered_spec (map (fun l => (l, pre_centering_spec records a (length ls) l)) ls))]).
Proof.
  intros Hnd Hin Hls Hndl Hacc.
  assert (Ha : In a (map fst attributes)) by (apply in_map_iff; by exists (a, ls)).
  unfold utilities_step. rewrite decide_False by (destruct ls; simpl; congruence).
  rewrite (fold_dict_set_fresh
             (fun l => level_utility (chosen_get (count_chosen records attributes) a l)
                         (total_choices records) (1 / INR (length ls))) ls []);
    [|done|intros ? ? []].
  simpl. rewrite (map_ext (fun l => (l, _)) (fun l => (l, pre_centering_spec records a (length ls) l))).
  2:{ intros l. by rewrite level_utility_spec. }
  rewrite dict_set_new by done. f_equal. f_equal. f_equal.
  unfold centered_spec. destruct ls as [|l0 ls']; [done|].
  unfold py_sum. rewrite fold_left_Rplus, Rplus_0_l. done.
Qed.

Lemma utilities_fold records attributes rest acc :
  NoDup (map fst attributes) ->
  (forall x, In x rest -> In x attributes) ->
  (forall a ls, In (a, ls) rest -> ls <> [] /\ NoDup ls) ->
  NoDup (map fst rest) ->
  (forall a, In a (map fst rest) -> ~ In a (map fst acc)) ->
  rfold_left (utilities_step (count_chosen records attributes) (total_choices records)) rest acc
  = Ok (acc ++ utilities_spec records rest).
Proof.
  intros Hnd. revert acc.
  induction rest as [|[a ls] rest IH]; intros acc Hsub Hwf Hndr Hfresh.
  { simpl. by rewrite app_nil_r. }
  cbn [rfold_left map fst] in *.
  apply NoDup_cons in Hndr as [Har Hndr].
  destruct (Hwf a ls (or_introl eq_refl)) as [Hls Hndl].
  rewrite utilities_step_spec; [|done|apply Hsub; by left|done|done|apply Hfresh; by left].
  simpl rbind. rewrite IH.
  - by rewrite <- app_assoc.
  - intros x Hx. apply Hsub. by right.
  - intros a' ls' H. apply (Hwf a' ls'). by right.
  - done.
  - intros a' Ha'. rewrite map_app. simpl. intros [Hin|[<-|[]]]%in_app_or.
    + by apply (Hfresh a'); [right|].
    + apply Har. by apply list_elem_of_In.
Qed.

End Utilities.

(* ================================================================== *)
(** ** Utility estimator *)

(** The estimator on attribute specifications whose attributes each have
    at least one level, all distinct: each level gets [ln (chosen_count /
    total_choices / (1 / n_levels))] if it was chosen and [-2.0]
    otherwise, and the attribute's mean is subtracted. *)
Lemma compute_utilities_formula (records : list ChoiceRecord) (attributes : AttrSpec) :
  NoDup (map fst attributes) ->
  (forall a ls, In (a, ls) attributes -> ls <> [] /\ NoDup ls) ->
  compute_utilities records attributes = Ok (utilities_spec records attributes).
Proof.
  intros Hnd Hwf. unfold compute_utilities.
  rewrite utilities_fold; [done|done|done|done|done|]. intros ? ? [].
Qed.

(** C1. An attribute with an empty level list makes the estimator raise
    [ZeroDivisionError] at [1.0 / n_levels], so no level of any attribute
    gets a utility; without that attribute, level "a" of "y" gets its
    utility as the formula says. *)
Theorem compute_utilities_empty_level_list :
  compute_utilities one_choice [("y", ["a"]); ("x", [])] = Err ZeroDivisionError /\
  compute_utilities one_choice [("y", ["a"])] = Ok (utilities_spec one_choice [("y", ["a"])]).
Proof.
  split; [reflexivity|].
  apply compute_utilities_formula.
  - solve_nodup.
  - intros a ls [[= <- <-]|[]]. split; [done|]. solve_nodup.
Qed.

(* ================================================================== *)
(** ** Lemmas on the importance calculator *)

Section Importance.

Lemma fold_dict_set_fresh_by {A V} (key : A -> string) (val : A -> V) (xs : list A)
    (d : list (string * V)) :
  NoDup (map key xs) -> (forall x, In x xs -> ~ In (key x) (map fst d)) ->
  fold_left (fun d x => dict_set (key x) (val x) d) xs d = d ++ map (fun x => (key x, val x)) xs.
Proof.
  revert d. induction xs as [|x xs IH]; intros d Hnd Hfresh; simpl; [by rewrite app_nil_r|].
  apply NoDup_cons in Hnd as [Hk Hnd].
  rewrite dict_set_new by (apply Hfresh; by left).
  rewrite IH; [by rewrite <- app_assoc|done|].
  intros x' Hx'. rewrite map_app. simpl. intros [Hin|[Heq|[]]]%in_app_or.
  - by apply (Hfresh x'); [right|].
  - apply Hk. apply list_elem_of_In. rewrite Heq. apply in_map. done.
Qed.

Lemma py_max_spec (v : R) (vs : list R) :
  In (py_max v vs) (v :: vs) /\ forall x, In x (v :: vs) -> (x <= py_max v vs)%R.
Proof.
  unfold py_max. revert v. induction vs as [|w vs IH]; intros v; cbn [fold_left].
  - split; [by left|]. intros x [<-|[]]. lra.
  - destruct (IH (Rmax v w)) as [Hin Hub]. split.
    + destruct Hin as [Heq|Hin]; [|by right; right].
      rewrite <- Heq. unfold Rmax. destruct (Rle_dec v w); [right; left|left]; done.
    + intros x Hx. assert (Hmax : (x <= Rmax v w)%R \/ In x vs).
      { destruct Hx as [<-|[<-|Hx]]; [left; apply Rmax_l|left; apply Rmax_r|by right]. }
      destruct Hmax as [Hle|Hx']; [|apply Hub; by right].
      eapply Rle_trans; [exact Hle|]. apply Hub. by left.
Qed.

Lemma py_min_spec (v : R) (vs : list R) :
  In (py_min v vs) (v :: vs) /\ forall x, In x (v :: vs) -> (py_min v vs <= x)%R.
Proof.
  unfold py_min. revert v. induction vs as [|w vs IH]; intros v; cbn [fold_left].
  - split; [by left|]. intros x [<-|[]]. lra.
  - destruct (IH (Rmin v w)) as [Hin Hlb]. split.
    + destruct Hin as [Heq|Hin]; [|by right; right].
      rewrite <- Heq. unfold Rmin. destruct (Rle_dec v w); [left|right; left]; done.
    + intros x Hx. assert (Hmin : (Rmin v w <= x)%R \/ In x vs).
      { destruct Hx as [<-|[<-|Hx]]; [left; apply Rmin_l|left; apply Rmin_r|by right]. }
      destruct Hmin as [Hle|Hx']; [|apply Hlb; by right].
      eapply Rle_trans; [|exact Hle]. apply Hlb. by left.
Qed.

Lemma attr_range_max_min (attr_utils : list (string * R)) :
  attr_utils <> [] ->
  exists M m, In M (map snd attr_utils) /\ In m (map snd attr_utils) /\
    (forall v, In v (map snd attr_utils) -> (m <= v <= M)%R) /\
    attr_range attr_utils = (M - m)%R.
Proof.
  intros Hne. unfold attr_range.
  destruct (map snd attr_utils) as [|v vs] eqn:Hvals.
  { destruct attr_utils; simpl in Hvals; congruence. }
  destruct (py_max_spec v vs) as [HM HMub]. destruct (py_min_spec v vs) as [Hm Hmlb].
  exists (py_max v vs), (py_min v vs). split; [done|]. split; [done|]. split; [|done].
  intros x Hx. split; [apply Hmlb|apply HMub]; done.
Qed.

Lemma attr_range_nonneg (attr_utils : list (string * R)) : (0 <= attr_range attr_utils)%R.
Proof.
  destruct attr_utils as [|lu rest] eqn:E; [unfold attr_range; simpl; lra|].
  destruct (attr_range_max_min (lu :: rest)) as (M & m & HM & Hm & Hb & ->); [done|].
  destruct (Hb M HM). lra.
Qed.

Lemma Rsum_nonneg_pos {A} (f : A -> R) (l : list A) :
  (forall x, In x l -> 0 <= f x)%R ->
  (0 <= fold_right Rplus 0 (map f l))%R /\
  ((exists x, In x l /\ f x <> 0%R) -> (0 < fold_right Rplus 0 (map f l))%R).
Proof.
  induction l as [|x l IH]; intros H; simpl.
  - split; [lra|]. intros (? & [] & _).
  - destruct IH as [IH0 IH1]; [intros y Hy; apply H; by right|].
    pose proof (H x (or_introl eq_refl)) as Hx. split; [lra|].
    intros (y & [<-|Hy] & Hne).
    + lra.
    + assert (0 < fold_right Rplus 0 (map f l))%R by (apply IH1; by exists y). lra.
Qed.

Lemma Rsum_scale {A} (f : A -> R) (T : R) (l : list A) :
  (fold_right Rplus 0 (map (fun x => f x / T * 100) l)
   = fold_right Rplus 0 (map f l) / T * 100)%R.
Proof.
  induction l as [|x l IH]; simpl; [unfold Rdiv; ring|]. rewrite IH. unfold Rdiv. ring.
Qed.

Lemma compute_importance_map (utilities : UtilityTable) :
  NoDup (map fst utilities) -> compute_importance utilities = importance_spec utilities.
Proof.
  intros Hnd. unfold compute_importance, importance_spec.
  rewrite (fold_dict_set_fresh_by fst (fun au => attr_range au.2) utilities []);
    [|done|intros ? ? []].
  simpl. rewrite map_map. simpl.
  set (T := py_sum (map (fun x => attr_range x.2) utilities)).
  rewrite (fold_dict_set_fresh_by fst
             (fun ar => if Rlt_dec 0%R T then (ar.2 / T * 100)%R else 0%R)
             (map (fun x => (x.1, attr_range x.2)) utilities) []).
  - simpl. rewrite map_map. simpl.
    assert (HT : T = fold_right Rplus 0%R (map (fun au => attr_range au.2) utilities)).
    { unfold T, py_sum. rewrite fold_left_Rplus. lra. }
    rewrite <- HT. done.
  - rewrite map_map. simpl. done.
  - intros ? ? [].
Qed.

End Importance.

(* ================================================================== *)
(** ** Importance calculator *)

(** C5. [_compute_importance] gives each attribute [range / (sum of all
    ranges) * 100], where the range is the maximum minus the minimum of
    the attribute's level utilities (0 without levels); the percentages
    sum to 100 when some attribute has a nonzero range, and are all 0
    when the total range is 0. *)
Theorem compute_importance_percentages (utilities : UtilityTable) :
  NoDup (map fst utilities) ->
  compute_importance utilities = importance_spec utilities /\
  (forall au, In au utilities -> au.2 = [] -> attr_range au.2 = 0%R) /\
  (forall au, In au utilities -> au.2 <> [] ->
     exists M m, In M (map snd au.2) /\ In m (map snd au.2) /\
       (forall v, In v (map snd au.2) -> (m <= v <= M)%R) /\
       attr_range au.2 = (M - m)%R) /\
  ((exists au, In au utilities /\ attr_range au.2 <> 0%R) ->
     fold_right Rplus 0%R (map snd (compute_importance utilities)) = 100%R) /\
  (fold_right Rplus 0%R (map (fun au => attr_range au.2) utilities) = 0%R ->
     forall ai, In ai (compute_importance utilities) -> ai.2 = 0%R).
Proof.
  intros Hnd. rewrite compute_importance_map by done.
  split; [done|]. split.
  { intros au _ Hnil. unfold attr_range. by rewrite Hnil. }
  split.
  { intros au _ Hne. by apply attr_range_max_min. }
  unfold importance_spec.
  set (T := fold_right Rplus 0%R (map (fun au => attr_range au.2) utilities)).
  destruct (Rsum_nonneg_pos (fun au : string * list (string * R) => attr_range au.2) utilities)
    as [HT0 HTpos]; [intros; apply attr_range_nonneg|].
  fold T in HT0, HTpos. split.
  - intros Hex. specialize (HTpos Hex). rewrite map_map. simpl.
    destruct (Rlt_dec 0 T) as [_|Hn]; [|lra].
    rewrite Rsum_scale. fold T. field. lra.
  - intros HT ai Hai. apply in_map_iff in Hai as (au & <- & _). simpl.
    destruct (Rlt_dec 0 T); [lra|done].
Qed.

(* ================================================================== *)
(** ** Lemmas on the market simulator *)

Section MarketSim.
Local Open Scope R_scope.

Lemma py_max_shift (v c : R) (vs : list R) :
  py_max (v + c) (map (fun u => u + c) vs) = (py_max v vs + c)%R.
Proof.
  unfold py_max. revert v. induction vs as [|w vs IH]; intros v; cbn [fold_left map]; [done|].
  rewrite <- IH. f_equal. unfold Rmax.
  destruct (Rle_dec v w), (Rle_dec (v + c) (w + c)); lra.
Qed.

Lemma logit_shares_shift (us : list R) (c : R) :
  logit_shares (map (fun u => u + c) us) = logit_shares us.
Proof.
  unfold logit_shares. destruct us as [|u us]; [done|].
  cbn [map]. rewrite py_max_shift.
  assert (Hexp : forall x, exp (x + c - (py_max u us + c)) = exp (x - py_max u us)).
  { intros x. f_equal. lra. }
  rewrite map_map. cbn [map]. rewrite Hexp.
  rewrite (map_ext (fun x => exp (x + c - (py_max u us + c))) (fun x => exp (x - py_max u us)))
    by (intros; apply Hexp).
  done.
Qed.

Lemma Rsum_div (l : list R) (S : R) :
  fold_right Rplus 0%R (map (fun e => e / S) l) = (fold_right Rplus 0%R l / S)%R.
Proof.
  induction l as [|x l IH]; simpl; [unfold Rdiv; ring|]. rewrite IH. unfold Rdiv. ring.
Qed.

Lemma Rsum_pos (l : list R) :
  l <> [] -> (forall x, In x l -> 0 < x)%R -> (0 < fold_right Rplus 0%R l)%R.
Proof.
  induction l as [|x l IH]; intros Hne H; [done|]. simpl.
  pose proof (H x (or_introl eq_refl)).
  destruct l as [|y l']; simpl; [lra|].
  assert (0 < fold_right Rplus 0%R (y :: l'))%R by (apply IH; [done|intros z Hz; apply H; by right]).
  simpl in *. lra.
Qed.

Lemma logit_shares_sum (us : list R) :
  us <> [] -> fold_right Rplus 0%R (logit_shares us) = 1%R.
Proof.
  intros Hne. unfold logit_shares.
  set (M := match us with [] => 0%R | u :: us0 => py_max u us0 end).
  set (E := map (fun u => exp (u - M)) us).
  assert (HS : (0 < fold_right Rplus 0%R E)%R).
  { apply Rsum_pos.
    - unfold E. destruct us; [done|]. discriminate.
    - intros x Hx. unfold E in Hx. apply in_map_iff in Hx as (u & <- & _). apply exp_pos. }
  assert (Hpy : py_sum E = fold_right Rplus 0%R E).
  { unfold py_sum. rewrite fold_left_Rplus. lra. }
  rewrite Hpy. destruct (Rlt_dec 0 (fold_right Rplus 0%R E)) as [_|Hn]; [|lra].
  rewrite Rsum_div. field. lra.
Qed.

Lemma map_snd_zip {A B} (l1 : list A) (l2 : list B) :
  length l1 = length l2 -> map snd (zip l1 l2) = l2.
Proof.
  revert l2. induction l1 as [|x l1 IH]; intros [|y l2] H; simpl in *; try done.
  rewrite IH; [done|lia].
Qed.

Lemma market_sim_shares (utilities : UtilityTable) (profiles : list Profile) :
  map snd (market_sim utilities profiles) = logit_shares (map (profile_total utilities) profiles).
Proof.
  unfold market_sim. apply map_snd_zip.
  rewrite length_zip_with, !length_map. unfold logit_shares. rewrite !length_map. lia.
Qed.

Lemma profile_step_comm (utilities : UtilityTable) j1 j2 z1 z2 (y : R) :
  profile_step utilities j1 z1 (profile_step utilities j2 z2 y)
  = profile_step utilities j2 z2 (profile_step utilities j1 z1 y).
Proof.
  unfold profile_step.
  destruct (dict_get j1 utilities) as [a1|]; [destruct (dict_get z1 a1)|];
  destruct (dict_get j2 utilities) as [a2|]; try destruct (dict_get z2 a2); try lra.
Qed.

End MarketSim.

(* ================================================================== *)
(** ** Market simulator *)

(** C2. For a non-empty list of profiles, the choice shares printed by
    [market_sim] are the logit shares of the profiles' total utilities and
    sum to 1; the logit shares do not change when one constant is added
    to every total utility. *)
Theorem market_sim_logit (utilities : UtilityTable) (profiles : list Profile) :
  profiles <> [] ->
  map snd (market_sim utilities profiles)
    = logit_shares (map (profile_total utilities) profiles) /\
  fold_right Rplus 0%R (map snd (market_sim utilities profiles)) = 1%R /\
  (forall c : R,
     logit_shares (map (fun u => (u + c)%R) (map (profile_total utilities) profiles))
     = logit_shares (map (profile_total utilities) profiles)).
Proof.
  intros Hne. split; [apply market_sim_shares|]. split.
  - rewrite market_sim_shares. apply logit_shares_sum.
    destruct profiles; [done|]. discriminate.
  - intros c. apply logit_shares_shift.
Qed.

(** C10. An attribute of a profile that the utility table knows, with a
    level the table's entry for it does not list, adds nothing to the
    profile's total utility. *)
Theorem profile_total_unknown_level (utilities : UtilityTable) (profile : Profile)
    (a l : string) (au : list (string * R)) :
  profile !! a = None -> dict_get a utilities = Some au -> dict_get l au = None ->
  profile_total utilities (<[a := l]> profile) = profile_total utilities profile.
Proof.
  intros Hp Ha Hl. unfold profile_total.
  rewrite map_fold_insert_L; [|intros; apply profile_step_comm|done].
  unfold profile_step at 1. by rewrite Ha, Hl.
Qed.

(* ================================================================== *)
(** ** Lemmas on the design search *)

(** The concrete generator meets the contracts. *)
#[export] Instance lcg_random_spec : PyRandomSpec Z.
Proof.
  split.
  - intros l st. simpl. rewrite Permutation_app_comm. by rewrite take_drop.
  - intros n st Hn. simpl. by apply Z.mod_pos_bound.
Qed.

Section SearchLists.

Lemma filter_all_id (Q : Profile -> Prop) `{forall x, Decision (Q x)} (l : list Profile) :
  (forall x, x ∈ l -> Q x) -> filter Q l = l.
Proof.
  induction l as [|x l IH]; intros Hall; [done|].
  rewrite filter_cons, decide_True by (apply Hall; by left).
  f_equal. apply IH. intros y Hy. apply Hall. by right.
Qed.

Lemma submseteq_filter_all (Q : Profile -> Prop) `{forall x, Decision (Q x)} (l k : list Profile) :
  l ⊆+ k -> (forall x, x ∈ l -> Q x) -> l ⊆+ filter Q k.
Proof.
  intros Hlk Hall. destruct (submseteq_Permutation _ _ Hlk) as [r Hr].
  rewrite Hr, filter_app, filter_all_id by done.
  by apply submseteq_inserts_r.
Qed.

(** [first] followed by a sub-list of [profiles] without [first]. *)
Lemma task_head_submseteq (P G cands : list Profile) (first : Profile) :
  first ∈ P -> G `sublist_of` cands -> cands ≡ₚ filter (fun p => p <> first) P ->
  first :: G ⊆+ P.
Proof.
  intros Hf HG Hc. apply elem_of_Permutation in Hf as [P' HP'].
  rewrite HP'. apply submseteq_skip.
  transitivity cands; [by apply sublist_submseteq|].
  rewrite Hc, HP', filter_cons, decide_False by tauto.
  apply sublist_submseteq, sublist_filter.
Qed.

(** The relaxed pass appends profiles not in the task. *)
Lemma task_submseteq (P T R : list Profile) (k : nat) :
  T ⊆+ P -> R ≡ₚ filter (fun p => p ∉ T) P -> T ++ take k R ⊆+ P.
Proof.
  intros HT HR.
  rewrite <- (filter_app_complement (fun p => p ∈ T) P).
  apply submseteq_app.
  - by apply submseteq_filter_all.
  - transitivity R; [apply submseteq_take|].
    apply Permutation_submseteq. rewrite HR.
    apply reflexive_eq, list_filter_iff. done.
Qed.

Lemma submseteq_NoDup (l k : list Profile) : l ⊆+ k -> NoDup k -> NoDup l.
Proof.
  intros Hlk Hk. destruct (submseteq_Permutation _ _ Hlk) as [r Hr].
  rewrite Hr in Hk. by apply NoDup_app in Hk as [? _].
Qed.

End SearchLists.

Section DiffCount.

Lemma profile_diff_count_ok (p1 p2 : Profile) :
  (forall k, is_Some (p1 !! k) -> is_Some (p2 !! k)) ->
  exists n, profile_diff_count p1 p2 = Ok n.
Proof.
  unfold profile_diff_count.
  apply (map_fold_weak_ind (fun r m => (forall k, is_Some (m !! k) -> is_Some (p2 !! k)) ->
                                       exists n, r = Ok n)).
  - intros _. by exists 0.
  - intros i x m r Hi IH Hdom. destruct IH as [n ->].
    { intros k Hk. apply Hdom. destruct (decide (i = k)) as [->|Hne].
      - rewrite lookup_insert_eq. eauto.
      - by rewrite lookup_insert_ne. }
    destruct (Hdom i) as [w Hw]; [rewrite lookup_insert_eq; eauto|].
    simpl. rewrite Hw. eauto.
Qed.

Lemma all_min_diff_ok md cand (task : list Profile) :
  (forall t, t ∈ task -> forall k, is_Some (cand !! k) -> is_Some (t !! k)) ->
  exists b, all_min_diff md cand task = Ok b.
Proof.
  induction task as [|t ts IH]; intros Hdom; simpl; [eauto|].
  destruct (profile_diff_count_ok cand t) as [d ->]; [apply Hdom; by left|].
  simpl. destruct (md <=? d); [|eauto]. apply IH. intros t' Ht'. apply Hdom. by right.
Qed.

Lemma fill_min_diff_shape ppt md (task cands T : list Profile) :
  fill_min_diff ppt md task cands = Ok T ->
  exists G, T = task ++ G /\ G `sublist_of` cands.
Proof.
  revert task. induction cands as [|c cs IH]; intros task; simpl.
  - intros [= <-]. exists []. rewrite app_nil_r. split; [done|constructor].
  - destruct (ppt <=? Z.of_nat (length task)).
    + intros [= <-]. exists []. rewrite app_nil_r. split; [done|apply sublist_nil_l].
    + destruct (all_min_diff md c task) as [[]|e]; simpl; [| |discriminate].
      * intros (G & -> & HG)%IH. exists (c :: G). rewrite <- app_assoc.
        split; [done|by constructor].
      * intros (G & -> & HG)%IH. exists G. split; [done|by constructor].
Qed.

Lemma fill_min_diff_ok ppt md (task cands : list Profile) :
  (forall t c, t ∈ task ++ cands -> c ∈ task ++ cands ->
     forall k, is_Some (c !! k) -> is_Some (t !! k)) ->
  exists T, fill_min_diff ppt md task cands = Ok T.
Proof.
  revert task. induction cands as [|c cs IH]; intros task Hdom; simpl; [eauto|].
  destruct (ppt <=? Z.of_nat (length task)); [eauto|].
  destruct (all_min_diff_ok md c task) as [b ->].
  { intros t Ht. apply Hdom; apply elem_of_app; [by left|]. right. by left. }
  simpl. apply IH. intros t c' Ht Hc'. apply Hdom.
  - destruct b; rewrite ?elem_of_app, ?elem_of_cons in *; set_solver.
  - destruct b; rewrite ?elem_of_app, ?elem_of_cons in *; set_solver.
Qed.

Lemma fill_any_take ppt (task rem : list Profile) :
  exists k, fill_any ppt task rem = task ++ take k rem.
Proof.
  revert task. induction rem as [|c cs IH]; intros task; simpl.
  - exists 0%nat. by rewrite take_nil, app_nil_r.
  - destruct (ppt <=? Z.of_nat (length task)).
    + exists 0%nat. by rewrite app_nil_r.
    + destruct (IH (task ++ [c])) as [k ->]. exists (S k). by rewrite <- app_assoc.
Qed.

End DiffCount.

Section GenTask.
Context `{PyRandomSpec St}.

Lemma py_pop_inv (l l' : list Profile) i x :
  py_pop l i = Ok (x, l') -> x ∈ l /\ (forall y, y ∈ l' -> y ∈ l).
Proof.
  unfold py_pop. destruct (_ || _); [discriminate|].
  destruct (l !! _) as [y|] eqn:Hy; [|discriminate]. intros [= <- <-]. split.
  - by eapply list_elem_of_lookup_2.
  - intros z. apply list_elem_of_delete_inv.
Qed.

Lemma py_pop_ok (l : list Profile) i :
  0 <= i < Z.of_nat (length l) -> exists x l', py_pop l i = Ok (x, l').
Proof.
  intros Hi. unfold py_pop.
  replace (i <? 0) with false by (symmetry; apply Z.ltb_ge; lia).
  replace ((i <? 0) || (Z.of_nat (length l) <=? i)) with false
    by (symmetry; apply orb_false_iff; split; [apply Z.ltb_ge|apply Z.leb_gt]; lia).
  destruct (lookup_lt_is_Some_2 l (Z.to_nat i)) as [x Hx]; [lia|].
  rewrite Hx. eauto.
Qed.

Lemma refill_spec (P avail : list Profile) st :
  (forall x, x ∈ avail -> x ∈ P) ->
  exists a1 s1, (match avail with [] => shuffle P | _ => mret avail end) st = Ok (a1, s1) /\
    (forall x, x ∈ a1 -> x ∈ P) /\ (P <> [] -> a1 <> []).
Proof.
  intros Hav. destruct avail as [|y ys].
  - unfold shuffle. destruct (py_shuffle P st) as [a1 s1] eqn:E.
    pose proof (py_shuffle_perm P st) as Hp. rewrite E in Hp. simpl in Hp.
    exists a1, s1. split; [done|]. split.
    + intros x. by rewrite Hp.
    + intros HP ->. apply Permutation_nil in Hp. done.
  - exists (y :: ys), st. split; [done|]. split; [done|discriminate].
Qed.

Lemma gen_task_sub (P : list Profile) ppt md avail st task avail' st' :
  (forall x, x ∈ avail -> x ∈ P) ->
  gen_task P ppt md avail st = Ok ((task, avail'), st') ->
  task ⊆+ P /\ (forall x, x ∈ avail' -> x ∈ P).
Proof.
  intros Hav. destruct (refill_spec P avail st Hav) as (a1 & s1 & Hr & Ha1 & _).
  cbv [gen_task mbind]. rewrite Hr.
  destruct (randint 0 _ s1) as [[i s2]|e]; [|discriminate].
  cbv [lift]. destruct (py_pop a1 i) as [[x a2]|e] eqn:Hpop; [|discriminate].
  destruct (py_pop_inv _ _ _ _ Hpop) as [Hx Ha2].
  cbv [shuffle].
  destruct (py_shuffle (filter (fun p => p <> x) P) s2) as [cands s3] eqn:Hc.
  pose proof (py_shuffle_perm (filter (fun p => p <> x) P) s2) as Hcp.
  rewrite Hc in Hcp. simpl in Hcp.
  destruct (fill_min_diff ppt md [x] cands) as [T|e] eqn:HT; [|discriminate].
  destruct (fill_min_diff_shape _ _ _ _ _ HT) as (G & -> & HG).
  assert (Hhead : [x] ++ G ⊆+ P) by (apply (task_head_submseteq P G cands x); auto).
  destruct (Z.of_nat (length ([x] ++ G)) <? ppt).
  - destruct (py_shuffle (filter (fun p => p ∉ [x] ++ G) P) s3) as [R s4] eqn:HR.
    pose proof (py_shuffle_perm (filter (fun p => p ∉ [x] ++ G) P) s3) as HRp.
    rewrite HR in HRp. simpl in HRp.
    cbv [mret]. intros [= <- <- <-].
    destruct (fill_any_take ppt (x :: G) R) as [k ->].
    split; [by apply task_submseteq|]. intros y Hy. by apply Ha1, Ha2.
  - cbv [mret]. intros [= <- <- <-]. split; [done|]. intros y Hy. by apply Ha1, Ha2.
Qed.

Lemma gen_task_ok (P : list Profile) ppt md avail st :
  P <> [] ->
  (forall p q, p ∈ P -> q ∈ P -> forall k, is_Some (p !! k) -> is_Some (q !! k)) ->
  (forall x, x ∈ avail -> x ∈ P) ->
  exists r, gen_task P ppt md avail st = Ok r.
Proof.
  intros HP Hkeys Hav.
  destruct (refill_spec P avail st Hav) as (a1 & s1 & Hr & Ha1 & Hne).
  specialize (Hne HP).
  assert (Hlen : 0 < Z.of_nat (length a1)) by (destruct a1; [done|simpl; lia]).
  cbv [gen_task mbind]. rewrite Hr. cbv [randint].
  destruct (_ <=? 0) eqn:Hw0; [apply Z.leb_le in Hw0; lia|].
  pose proof (py_randbelow_range (Z.of_nat (length a1) - 1 + 1 - 0) s1) as Hk.
  destruct (py_randbelow _ s1) as [k s2]. simpl in Hk. specialize (Hk ltac:(lia)).
  cbv [lift]. destruct (py_pop_ok a1 (0 + k)) as (x & a2 & Hpop); [lia|].
  rewrite Hpop. destruct (py_pop_inv _ _ _ _ Hpop) as [Hx _].
  cbv [shuffle].
  destruct (py_shuffle (filter (fun p => p <> x) P) s2) as [cands s3] eqn:Hc.
  pose proof (py_shuffle_perm (filter (fun p => p <> x) P) s2) as Hcp.
  rewrite Hc in Hcp. simpl in Hcp.
  destruct (fill_min_diff_ok ppt md [x] cands) as [T HT].
  { assert (Hin : forall y, y ∈ [x] ++ cands -> y ∈ P).
    { intros y Hy. apply elem_of_app in Hy as [Hy|Hy].
      - apply list_elem_of_singleton in Hy as ->. by apply Ha1.
      - rewrite Hcp in Hy. by apply list_elem_of_filter in Hy as [_ ?]. }
    intros t c Ht Hc' k'. apply Hkeys; by apply Hin. }
  rewrite HT. destruct (_ <? ppt).
  - destruct (py_shuffle _ s3). eexists. reflexivity.
  - eexists. reflexivity.
Qed.

End GenTask.

Section SearchLoop.
Context `{PyRandomSpec St}.

Lemma gen_tasks_sub (P : list Profile) ppt md k avail st css st' :
  (forall x, x ∈ avail -> x ∈ P) ->
  gen_tasks P ppt md k avail st = Ok (css, st') ->
  forall t, t ∈ css -> t ⊆+ P.
Proof.
  revert avail st css st'. induction k as [|k IH]; intros avail st css st' Hav; simpl.
  - intros [= <- _] t Ht. by apply not_elem_of_nil in Ht.
  - unfold mbind. destruct (gen_task P ppt md avail st) as [[[task av'] s1]|e] eqn:E;
      [|discriminate].
    destruct (gen_task_sub _ _ _ _ _ _ _ _ Hav E) as [Ht Hav'].
    simpl. destruct (gen_tasks P ppt md k av' s1) as [[rest s2]|e] eqn:E2; [|discriminate].
    unfold mret. intros [= <- _] t [->|Hin]%elem_of_cons; [done|].
    by eapply IH.
Qed.

Lemma gen_tasks_ok (P : list Profile) ppt md k avail st :
  (P <> [] \/ k = 0%nat) ->
  (forall p q, p ∈ P -> q ∈ P -> forall k, is_Some (p !! k) -> is_Some (q !! k)) ->
  (forall x, x ∈ avail -> x ∈ P) ->
  exists r, gen_tasks P ppt md k avail st = Ok r.
Proof.
  revert avail st. induction k as [|k IH]; intros avail st HP Hkeys Hav; simpl; [eauto|].
  destruct HP as [HP|HP]; [|discriminate].
  unfold mbind. destruct (gen_task_ok P ppt md avail st HP Hkeys Hav) as [[[task av'] s1] E].
  rewrite E. destruct (gen_task_sub _ _ _ _ _ _ _ _ Hav E) as [_ Hav'].
  simpl. destruct (IH av' s1) as [[rest s2] ->]; [by left|done|done|].
  eexists. reflexivity.
Qed.

Lemma gen_tasks_empty ppt md k avail st :
  avail = [] -> (0 < k)%nat -> gen_tasks [] ppt md k avail st = Err ValueError.
Proof.
  intros -> Hk. destruct k as [|k]; [lia|]. simpl. unfold mbind.
  cbv [gen_task mbind shuffle].
  pose proof (py_shuffle_perm [] st) as Hp.
  destruct (py_shuffle [] st) as [a1 s1]. simpl in Hp.
  symmetry in Hp. apply Permutation_nil in Hp as ->. reflexivity.
Qed.


Lemma gen_attempt_sub (P : list Profile) attrs n ppt md st css sc st' :
  gen_attempt P attrs n ppt md st = Ok ((css, sc), st') ->
  forall t, t ∈ css -> t ⊆+ P.
Proof.
  cbv [gen_attempt mbind shuffle].
  pose proof (py_shuffle_perm P st) as Hp.
  destruct (py_shuffle P st) as [av s1]. simpl in Hp.
  destruct (gen_tasks P ppt md (Z.to_nat n) av s1) as [[css' s2]|e] eqn:E; [|discriminate].
  cbv [lift]. destruct (level_balance_score css' attrs); [|discriminate].
  cbv [mret]. intros [= <- _ _]. eapply gen_tasks_sub; [|exact E].
  intros x. by rewrite Hp.
Qed.

Lemma gen_attempt_ok (P : list Profile) attrs n ppt md st :
  (P <> [] \/ Z.to_nat n = 0%nat) ->
  (forall p q, p ∈ P -> q ∈ P -> forall k, is_Some (p !! k) -> is_Some (q !! k)) ->
  (forall p a, p ∈ P -> In a (map fst attrs) -> is_Some (p !! a)) ->
  exists r, gen_attempt P attrs n ppt md st = Ok r.
Proof.
  intros HP Hkeys Hattrs. cbv [gen_attempt mbind shuffle].
  pose proof (py_shuffle_perm P st) as Hp.
  destruct (py_shuffle P st) as [av s1]. simpl in Hp.
  assert (Hav : forall x, x ∈ av -> x ∈ P) by (intros x; by rewrite Hp).
  destruct (gen_tasks_ok P ppt md (Z.to_nat n) av s1 HP Hkeys Hav) as [[css s2] E].
  rewrite E. cbv [lift level_balance_score].
  destruct (level_balance_fold_ok css attrs 0%Q) as (s & -> & _).
  { intros p a Hp' Ha. apply Hattrs; [|done].
    apply in_concat in Hp' as (t & Ht & Hpt).
    apply list_elem_of_In in Ht, Hpt.
    eapply elem_of_submseteq; [exact Hpt|].
    eapply gen_tasks_sub; [exact Hav|exact E|exact Ht]. }
  eexists. reflexivity.
Qed.

Lemma gen_attempt_empty attrs n ppt md st :
  (0 < Z.to_nat n)%nat -> gen_attempt [] attrs n ppt md st = Err ValueError.
Proof.
  intros Hn. cbv [gen_attempt mbind shuffle].
  pose proof (py_shuffle_perm [] st) as Hp.
  destruct (py_shuffle [] st) as [av s1]. simpl in Hp.
  symmetry in Hp. apply Permutation_nil in Hp as ->.
  by rewrite gen_tasks_empty.
Qed.


Lemma search_loop_sub (P : list Profile) attrs n ppt md k best st best' st' :
  (forall cs sc, best = Some (cs, sc) -> forall t, t ∈ cs -> t ⊆+ P) ->
  search_loop P attrs n ppt md k best st = Ok (best', st') ->
  forall cs sc, best' = Some (cs, sc) -> forall t, t ∈ cs -> t ⊆+ P.
Proof.
  revert best st. induction k as [|k IH]; intros best st Hbest; simpl.
  - intros [= <- _]. exact Hbest.
  - unfold mbind.
    destruct (gen_attempt P attrs n ppt md st) as [[[css sc] s1]|e] eqn:E; [|discriminate].
    apply IH. pose proof (gen_attempt_sub _ _ _ _ _ _ _ _ _ E) as Hcss.
    destruct best as [[cs0 sc0]|]; simpl;
      [destruct (Qlt_le_dec sc sc0)|]; intros cs' sc' [= <- <-]; auto.
    eapply Hbest. reflexivity.
Qed.

Lemma search_loop_ok (P : list Profile) attrs n ppt md k best st :
  (P <> [] \/ Z.to_nat n = 0%nat) ->
  (forall p q, p ∈ P -> q ∈ P -> forall k, is_Some (p !! k) -> is_Some (q !! k)) ->
  (forall p a, p ∈ P -> In a (map fst attrs) -> is_Some (p !! a)) ->
  exists best' st', search_loop P attrs n ppt md k best st = Ok (best', st') /\
    (is_Some best \/ (0 < k)%nat -> is_Some best').
Proof.
  intros HP Hkeys Hattrs. revert best st.
  induction k as [|k IH]; intros best st; simpl.
  - exists best, st. split; [done|]. intros [?|?]; [done|lia].
  - unfold mbind.
    destruct (gen_attempt_ok P attrs n ppt md st HP Hkeys Hattrs) as [[[css sc] s1] E].
    rewrite E.
    match goal with |- context [search_loop P attrs n ppt md k ?b s1] =>
      destruct (IH b s1) as (best' & st' & Hl & Hs) end.
    exists best', st'. split; [done|]. intros _. apply Hs. left.
    destruct best as [[cs0 sc0]|]; simpl; [destruct (Qlt_le_dec sc sc0)|]; eauto.
Qed.

Lemma search_loop_empty attrs n ppt md k best st :
  (0 < Z.to_nat n)%nat -> (0 < k)%nat ->
  search_loop [] attrs n ppt md k best st = Err ValueError.
Proof.
  intros Hn Hk. destruct k as [|k]; [lia|]. simpl. unfold mbind.
  by rewrite gen_attempt_empty.
Qed.

End SearchLoop.

Section DriverLemmas.
Context `{PyRandomSpec St}.

Lemma shuffle_all_spec (css : list ChoiceTask) st :
  exists css' st', shuffle_all css st = Ok (css', st') /\
    forall t', t' ∈ css' -> exists t, t ∈ css /\ t' ≡ₚ t.
Proof.
  revert st. induction css as [|cs rest IH]; intros st; simpl.
  - exists [], st. split; [done|]. intros t' Ht'. by apply not_elem_of_nil in Ht'.
  - cbv [mbind shuffle mret].
    pose proof (py_shuffle_perm cs st) as Hp.
    destruct (py_shuffle cs st) as [cs' s1]. simpl in Hp.
    destruct (IH s1) as (rest' & s2 & Hr & Hrest). fold (@mbind St). rewrite Hr.
    exists (cs' :: rest'), s2. split; [done|].
    intros t' [->|Ht']%elem_of_cons.
    + exists cs. split; [by left|done].
    + destruct (Hrest t' Ht') as (t & Ht & Hpt). exists t. split; [by right|done].
Qed.

Lemma search_iterations_pos : (0 < Z.to_nat search_iterations)%nat.
Proof. apply Nat.ltb_lt. reflexivity. Qed.

Lemma build_version_sub (P : list Profile) attrs n ppt md v st dv st' :
  build_version P attrs n ppt md v st = Ok (dv, st') ->
  forall t, t ∈ choice_sets dv -> t ⊆+ P.
Proof.
  cbv [build_version mbind generate_one_version].
  destruct (search_loop P attrs n ppt md _ None st) as [[best s1]|e] eqn:E; [|discriminate].
  destruct best as [[css sc]|]; [|discriminate].
  pose proof (search_loop_sub P attrs n ppt md _ None st _ _ ltac:(intros ? ? ?; discriminate) E css sc eq_refl) as Hcss.
  destruct (shuffle_all_spec css s1) as (css' & s2 & Hs & Hperm).
  rewrite Hs. cbv [mret]. intros [= <- _] t Ht. simpl in Ht.
  destruct (Hperm t Ht) as (t0 & Ht0 & Hp). rewrite Hp. by apply Hcss.
Qed.

Lemma build_version_ok (P : list Profile) attrs n ppt md v st :
  (P <> [] \/ Z.to_nat n = 0%nat) ->
  (forall p q, p ∈ P -> q ∈ P -> forall k, is_Some (p !! k) -> is_Some (q !! k)) ->
  (forall p a, p ∈ P -> In a (map fst attrs) -> is_Some (p !! a)) ->
  exists r, build_version P attrs n ppt md v st = Ok r.
Proof.
  intros HP Hkeys Hattrs. cbv [build_version mbind generate_one_version].
  destruct (search_loop_ok P attrs n ppt md (Z.to_nat search_iterations) None st HP Hkeys Hattrs)
    as (best & s1 & E & Hs).
  rewrite E. destruct Hs as [[css sc] ->]; [right; apply search_iterations_pos|].
  destruct (shuffle_all_spec css s1) as (css' & s2 & Hsh & _).
  fold (@mbind St). rewrite Hsh. eexists. reflexivity.
Qed.

Lemma build_version_empty attrs n ppt md v st :
  (0 < Z.to_nat n)%nat -> build_version [] attrs n ppt md v st = Err ValueError.
Proof.
  intros Hn. cbv [build_version mbind generate_one_version].
  by rewrite search_loop_empty by (done || apply search_iterations_pos).
Qed.


(** Each version is built from the state [random.seed(seed + v)] leaves,
    whatever the previous versions did. *)
Lemma versions_loop_seeded (P : list Profile) attrs n ppt md seed vs st dvs st' :
  versions_loop P attrs n ppt md seed vs st = Ok (dvs, st') ->
  Forall2 (fun v dv => exists s, build_version P attrs n ppt md v (py_seed (seed + v)) = Ok (dv, s))
    vs dvs.
Proof.
  revert st dvs st'. induction vs as [|v vs IH]; intros st dvs st'; simpl.
  - intros [= <- _]. constructor.
  - cbv [mbind reseed].
    destruct (build_version P attrs n ppt md v (py_seed (seed + v))) as [[dv s1]|e] eqn:E;
      [|discriminate].
    fold (@mbind St).
    destruct (versions_loop P attrs n ppt md seed vs s1) as [[rest s2]|e] eqn:E2; [|discriminate].
    cbv [mret]. intros [= <- _]. constructor; [eauto|]. by eapply IH.
Qed.

Lemma versions_loop_ok (P : list Profile) attrs n ppt md seed vs st :
  (P <> [] \/ Z.to_nat n = 0%nat) ->
  (forall p q, p ∈ P -> q ∈ P -> forall k, is_Some (p !! k) -> is_Some (q !! k)) ->
  (forall p a, p ∈ P -> In a (map fst attrs) -> is_Some (p !! a)) ->
  exists r, versions_loop P attrs n ppt md seed vs st = Ok r.
Proof.
  intros HP Hkeys Hattrs. revert st. induction vs as [|v vs IH]; intros st; simpl; [eauto|].
  cbv [mbind reseed].
  destruct (build_version_ok P attrs n ppt md v (py_seed (seed + v)) HP Hkeys Hattrs)
    as [[dv s1] ->].
  fold (@mbind St). destruct (IH s1) as [[rest s2] ->]. eexists. reflexivity.
Qed.

Lemma versions_loop_empty attrs n ppt md seed vs st :
  (0 < Z.to_nat n)%nat -> vs <> [] ->
  versions_loop [] attrs n ppt md seed vs st = Err ValueError.
Proof.
  intros Hn Hvs. destruct vs as [|v vs]; [done|]. simpl. cbv [mbind reseed].
  by rewrite build_version_empty.
Qed.


Lemma versions_loop_sub (P : list Profile) attrs n ppt md seed vs st dvs st' :
  versions_loop P attrs n ppt md seed vs st = Ok (dvs, st') ->
  forall dv t, In dv dvs -> In t (choice_sets dv) -> t ⊆+ P.
Proof.
  intros E%versions_loop_seeded. induction E as [|v dv vs dvs [s Hb] _ IH];
    intros dv' t Hdv Ht; [done|].
  destruct Hdv as [<-|Hdv]; [|by eapply IH].
  eapply build_version_sub; [exact Hb|]. by apply list_elem_of_In.
Qed.

Lemma build_version_number (P : list Profile) attrs n ppt md v st dv st' :
  build_version P attrs n ppt md v st = Ok (dv, st') -> version dv = v + 1.
Proof.
  cbv [build_version mbind].
  destruct (generate_one_version P attrs n ppt md search_iterations st) as [[[[css sc]|] s1]|e];
    [|discriminate|discriminate].
  destruct (shuffle_all css s1) as [[css' s2]|e]; [|discriminate].
  cbv [mret]. by intros [= <- _].
Qed.

(** The enumerated profiles share one key set, the attribute names. *)
Lemma all_profiles_same_keys attributes :
  forall p q, p ∈ all_profiles attributes -> q ∈ all_profiles attributes ->
  forall k, is_Some (p !! k) -> is_Some (q !! k).
Proof.
  intros p q Hp Hq k Hk. apply list_elem_of_In in Hp, Hq.
  apply (all_profiles_dom attributes q k Hq). by apply (all_profiles_dom attributes p k Hp).
Qed.

Lemma all_profiles_has_attrs attributes :
  forall p a, p ∈ all_profiles attributes -> In a (map fst attributes) -> is_Some (p !! a).
Proof.
  intros p a Hp Ha. apply list_elem_of_In in Hp. by apply (all_profiles_dom attributes p a Hp).
Qed.

End DriverLemmas.

(* ================================================================== *)
(** ** Design search and driver *)

Section DesignClaims.
Context `{PyRandomSpec St}.

(** C6 (amended). Every task the search returns is a sub-multiset of the
    profiles it searched: it holds no profile more often than the input
    list does. So when those profiles are pairwise distinct, the profiles
    within every task are pairwise distinct; in particular when they are
    the enumerated profiles of a specification with distinct attribute
    names and duplicate-free level lists. With repeated input profiles a
    task can repeat one. *)
Theorem generate_one_version_tasks_distinct (profiles : list Profile) (attributes : AttrSpec)
    (n_tasks profiles_per_task min_diff iterations : Z) (st : St)
    (css : list ChoiceTask) (score : Q) (st' : St) :
  generate_one_version profiles attributes n_tasks profiles_per_task min_diff iterations st
    = Ok (Some (css, score), st') ->
  (forall task, In task css -> task ⊆+ profiles) /\
  (NoDup profiles -> forall task, In task css -> NoDup task) /\
  (profiles = all_profiles attributes -> NoDup (map fst attributes) ->
     (forall a ls, In (a, ls) attributes -> NoDup ls) ->
     forall task, In task css -> NoDup task).
Proof.
  intros E.
  assert (Hsub : forall task, In task css -> task ⊆+ profiles).
  { intros task Htask.
    apply (search_loop_sub profiles attributes n_tasks profiles_per_task min_diff
             (Z.to_nat iterations) None st _ _ ltac:(intros ? ? ?; discriminate) E css score eq_refl).
    by apply list_elem_of_In. }
  assert (Hnd : NoDup profiles -> forall task, In task css -> NoDup task).
  { intros Hnd task Htask. apply (submseteq_NoDup _ profiles); [by apply Hsub|done]. }
  split; [exact Hsub|]. split; [exact Hnd|].
  intros -> Hnames Hlevels. apply Hnd. by apply all_profiles_NoDup.
Qed.

(** C8 (amended). In every generated version, each choice task is a
    sub-multiset of the enumerated profiles, so no task holds more
    profiles than [total_profiles]; the version as a whole may hold more,
    since the pool of profiles is refilled when it runs out. *)
Theorem generate_design_tasks_within_profiles (spec : DesignSpec) (out : DesignOutput) :
  generate_design spec = Ok out ->
  out_total_profiles out = Z.of_nat (length (all_profiles (spec_attributes spec))) /\
  forall dv task, In dv (out_versions out) -> In task (choice_sets dv) ->
    task ⊆+ all_profiles (spec_attributes spec) /\
    Z.of_nat (length task) <= out_total_profiles out.
Proof.
  unfold generate_design. destruct (_ <? _); [discriminate|].
  destruct (versions_loop _ _ _ _ _ _ _ _) as [[dvs s]|e] eqn:E; [|discriminate].
  intros [= <-]. simpl. split; [done|]. intros dv task Hdv Htask.
  pose proof (versions_loop_sub _ _ _ _ _ _ _ _ _ _ E dv task Hdv Htask) as Hsub.
  split; [done|]. apply submseteq_length in Hsub. lia.
Qed.


(** C7. [generate_design] is a function of the specification alone, so
    equal specifications give equal designs; its versions correspond one
    to one to [v = 0, ..., n_versions - 1], and version [v] is numbered
    [v + 1] and is exactly what [build_version] produces from the state
    [random.seed(seed + v)] sets, whatever the earlier versions drew. *)
Theorem generate_design_version_seeds (spec : DesignSpec) (out : DesignOutput) :
  generate_design spec = Ok out ->
  let attributes := spec_attributes spec in
  let n_tasks := get_or (spec_tasks_per_version spec) 8 in
  let profiles_per_task := get_or (spec_profiles_per_task spec) 3 in
  let n_versions := get_or (spec_n_versions spec) 4 in
  let min_diff0 := get_or (spec_min_attribute_diff spec) 2 in
  let seed := get_or (spec_seed spec) 42 in
  let n_attrs := Z.of_nat (length attributes) in
  let min_diff := if n_attrs <? min_diff0 then Z.max 1 (n_attrs - 1) else min_diff0 in
  Forall2 (fun v dv =>
      version dv = v + 1 /\
      (exists st', build_version (all_profiles attributes) attributes n_tasks profiles_per_task
                     min_diff v (py_seed (seed + v)) = Ok (dv, st')))
    (map Z.of_nat (seq 0 (Z.to_nat n_versions))) (out_versions out).
Proof.
  unfold generate_design. destruct (_ <? _); [discriminate|].
  destruct (versions_loop _ _ _ _ _ _ _ _) as [[dvs s]|e] eqn:E; [|discriminate].
  intros [= <-]. simpl. apply versions_loop_seeded in E.
  eapply Forall2_impl; [exact E|]. intros v dv [st' Hb]. split; [|eauto].
  by eapply build_version_number.
Qed.


(** C9 (amended). [generate_design] exits with [sys.exit(1)] exactly when
    [profiles_per_task] exceeds the number of enumerated profiles. When it
    does not, the run still fails, with [ValueError] from [randint(0, -1)],
    exactly when no profile was enumerated (an attribute with no levels)
    while at least one task of at least one version is to be drawn;
    otherwise it completes. *)
Theorem generate_design_fatal_errors (spec : DesignSpec) :
  let attributes := spec_attributes spec in
  let n_tasks := get_or (spec_tasks_per_version spec) 8 in
  let profiles_per_task := get_or (spec_profiles_per_task spec) 3 in
  let n_versions := get_or (spec_n_versions spec) 4 in
  let total := Z.of_nat (length (all_profiles attributes)) in
  (total < profiles_per_task -> generate_design spec = Err (SystemExit 1)) /\
  (profiles_per_task <= total -> total = 0 -> 0 < n_tasks -> 0 < n_versions ->
     generate_design spec = Err ValueError) /\
  (profiles_per_task <= total -> (0 < total \/ n_tasks <= 0 \/ n_versions <= 0) ->
     exists out, generate_design spec = Ok out).
Proof.
  cbv zeta. split; [|split].
  - intros Hlt. unfold generate_design. by rewrite (proj2 (Z.ltb_lt _ _) Hlt).
  - intros Hle Hz Hn Hv. unfold generate_design. rewrite (proj2 (Z.ltb_ge _ _) Hle).
    assert (EP : all_profiles (spec_attributes spec) = [])
      by (destruct (all_profiles _); [done|simpl in Hz; lia]).
    rewrite EP, versions_loop_empty; [done|lia|].
    destruct (Z.to_nat _) eqn:Ev; [lia|discriminate].
  - intros Hle Hcase. unfold generate_design. rewrite (proj2 (Z.ltb_ge _ _) Hle).
    destruct (decide (get_or (spec_n_versions spec) 4 <= 0)) as [Hv|Hv].
    + replace (Z.to_nat (get_or (spec_n_versions spec) 4)) with 0%nat by lia.
      eexists. reflexivity.
    + match goal with |- context [versions_loop ?P ?a ?n ?p ?m ?s ?vs ?st] =>
        destruct (versions_loop_ok P a n p m s vs st) as [[dvs s'] E] end.
      * destruct (all_profiles _) eqn:EP; [|by left].
        right. simpl in Hcase. lia.
      * apply all_profiles_same_keys.
      * apply all_profiles_has_attrs.
      * rewrite E. eexists. reflexivity.
Qed.

End DesignClaims.

(* ================================================================== *)
(** ** Instances on the example inputs *)

(** C2 on two profiles: the simulated shares sum to one. *)
Lemma market_sim_logit_witness :
  fold_right Rplus 0%R
    (map snd (market_sim example_utilities
                [example_profile "low" "X"; example_profile "high" "Z"])) = 1%R.
Proof.
  exact (proj1 (proj2 (market_sim_logit example_utilities
                         [example_profile "low" "X"; example_profile "high" "Z"]
                         ltac:(discriminate)))).
Defined.

(** C3 on [balanced_tasks]: the score is computed and is zero. *)
Lemma level_balance_score_spec_witness :
  exists score, level_balance_score balanced_tasks balanced_attributes = Ok score /\
                (score == 0)%Q.
Proof.
  assert (Hwf : Forall (fun p => Forall (fun a => is_Some (p !! a)) (map fst balanced_attributes))
                  (concat balanced_tasks))
    by (apply (bool_decide_unpack _); vm_compute; reflexivity).
  assert (Hbal : forallb (fun al => forallb (fun l =>
              Qeq_bool (inject_Z (Z.of_nat (observed_slots balanced_tasks al.1 l)))
                       (expected_slots balanced_tasks al.2)) al.2) balanced_attributes = true)
    by (vm_compute; reflexivity).
  destruct (level_balance_score_spec balanced_tasks balanced_attributes)
    as (score & Hs & _ & _ & Hz).
  { intros p a Hp Ha. rewrite List.Forall_forall in Hwf.
    specialize (Hwf p Hp). rewrite List.Forall_forall in Hwf. by apply Hwf. }
  exists score. split; [done|]. apply Hz. intros a levels l Hal Hl.
  rewrite forallb_forall in Hbal. specialize (Hbal (a, levels) Hal).
  rewrite forallb_forall in Hbal. apply Qeq_bool_iff. exact (Hbal l Hl).
Defined.

(** C4 on [example_attributes]: six profiles, as the product [2 * 3]. *)
Lemma all_profiles_cartesian_witness :
  length (all_profiles example_attributes) = level_count_product example_attributes.
Proof.
  exact (proj1 (proj2 (all_profiles_cartesian example_attributes ltac:(solve_nodup)))).
Defined.

(** C5 on [example_utilities]. *)
Lemma compute_importance_percentages_witness :
  compute_importance example_utilities = importance_spec example_utilities.
Proof.
  exact (proj1 (compute_importance_percentages example_utilities ltac:(solve_nodup))).
Defined.

(** C10: a price level the table does not list adds nothing. *)
Lemma profile_total_unknown_level_witness :
  profile_total example_utilities (<["price" := "mid"]> {["brand" := "X"]})
  = profile_total example_utilities {["brand" := "X"]}.
Proof.
  apply (profile_total_unknown_level example_utilities {["brand" := "X"]} "price" "mid"
           [("low", 1%R); ("high", (-1)%R)]); reflexivity.
Defined.

(** C6 on the enumerated [example_attributes], one attempt. *)
Lemma generate_one_version_tasks_distinct_witness :
  exists css score st',
    generate_one_version (St:=Z) (all_profiles example_attributes) example_attributes
      2 2 2 1 (py_seed 42) = Ok (Some (css, score), st') /\
    (forall task, In task css -> task ⊆+ all_profiles example_attributes) /\
    (NoDup (all_profiles example_attributes) -> forall task, In task css -> NoDup task) /\
    (all_profiles example_attributes = all_profiles example_attributes ->
       NoDup (map fst example_attributes) ->
       (forall a ls, In (a, ls) example_attributes -> NoDup ls) ->
       forall task, In task css -> NoDup task).
Proof.
  lazymatch eval vm_compute in
    (generate_one_version (St:=Z) (all_profiles example_attributes) example_attributes
       2 2 2 1 (py_seed 42)) with
  | Ok (Some (?c, ?s), ?t) =>
      exists c, s, t; split; [vm_compute; reflexivity|];
      apply (generate_one_version_tasks_distinct (all_profiles example_attributes)
               example_attributes 2 2 2 1 (py_seed 42) c s t);
      vm_compute; reflexivity
  end.
Defined.

(** C6 fails on a specification that lists a level twice: the only task
    holds one profile twice. *)
Lemma generate_design_repeated_profile_in_task :
  exists out, generate_design (St:=Z) repeated_level_design = Ok out /\
    exists dv task, In dv (out_versions out) /\ In task (choice_sets dv) /\ ~ NoDup task.
Proof.
  lazymatch eval vm_compute in (generate_design (St:=Z) repeated_level_design) with
  | Ok ?o => exists o
  end.
  split; [vm_compute; reflexivity|].
  eexists _, _. split; [apply in_eq|]. split; [apply in_eq|].
  intros Hnd. apply (bool_decide_eq_true _) in Hnd. vm_compute in Hnd. discriminate.
Defined.

(** C7 on [example_design]: versions 1 and 2 come from seeds 42 and 43. *)
Lemma generate_design_version_seeds_witness :
  exists out, generate_design (St:=Z) example_design = Ok out /\
    Forall2 (fun v dv => version dv = v + 1 /\
               exists st', build_version (all_profiles example_attributes) example_attributes
                             3 2 2 v (py_seed (42 + v)) = Ok (dv, st'))
      [0; 1] (out_versions out).
Proof.
  lazymatch eval vm_compute in (generate_design (St:=Z) example_design) with
  | Ok ?o =>
      assert (E : generate_design (St:=Z) example_design = Ok o) by (vm_compute; reflexivity);
      exists o; split; [exact E|];
      pose proof (generate_design_version_seeds (St:=Z) example_design o E) as HF;
      cbv zeta in HF;
      exact HF
  end.
Defined.

(** C8 on [example_design]. *)
Lemma generate_design_tasks_within_profiles_witness :
  exists out, generate_design (St:=Z) example_design = Ok out /\
    forall dv task, In dv (out_versions out) -> In task (choice_sets dv) ->
      task ⊆+ all_profiles example_attributes.
Proof.
  lazymatch eval vm_compute in (generate_design (St:=Z) example_design) with
  | Ok ?o =>
      assert (E : generate_design (St:=Z) example_design = Ok o) by (vm_compute; reflexivity);
      exists o; split; [exact E|];
      intros dv task Hdv Ht;
      pose proof (proj2 (generate_design_tasks_within_profiles (St:=Z) example_design o E) dv task Hdv Ht) as HF;
      exact (proj1 HF)
  end.
Defined.

(** C8 fails with two profiles and two tasks of two: the version holds
    four profiles. *)
Lemma generate_design_version_exceeds_profiles :
  exists out, generate_design (St:=Z) two_profile_design = Ok out /\
    exists dv, In dv (out_versions out) /\
      out_total_profiles out < Z.of_nat (length (concat (choice_sets dv))).
Proof.
  lazymatch eval vm_compute in (generate_design (St:=Z) two_profile_design) with
  | Ok ?o => exists o
  end.
  split; [vm_compute; reflexivity|].
  eexists. split; [apply in_eq|]. vm_compute. reflexivity.
Defined.

(** C9 on [example_design]: enough profiles, so the run completes. *)
Lemma generate_design_fatal_errors_witness :
  exists out, generate_design (St:=Z) example_design = Ok out.
Proof.
  apply (proj2 (proj2 (generate_design_fatal_errors (St:=Z) example_design))).
  - vm_compute. congruence.
  - left. vm_compute. reflexivity.
Defined.

(** C9 fails on [empty_level_design]: no shortage of profiles
    ([0 <= 0]), yet the run raises [ValueError]. *)
Lemma generate_design_error_without_shortage :
  generate_design (St:=Z) empty_level_design = Err ValueError /\
  get_or (spec_profiles_per_task empty_level_design) 3
    <= Z.of_nat (length (all_profiles (spec_attributes empty_level_design))).
Proof.
  split; vm_compute; [reflexivity|congruence].
Defined.

(* ================================================================== *)
(** ** Further properties: slugs, profile distance, balance score, design *)

Lemma in_drop_spaces c l : In c (drop_spaces l) -> In c l.
Proof.
  induction l as [|x l IH]; simpl; [done|].
  destruct (is_space x); [auto|done].
Qed.

Lemma in_py_strip c l : In c (py_strip l) -> In c l.
Proof.
  unfold py_strip. intros H.
  apply in_rev, in_drop_spaces, in_rev, in_drop_spaces in H. exact H.
Qed.

Lemma in_take_ascii c n (l : list ascii) : In c (take n l) -> In c l.
Proof.
  intros H. apply list_elem_of_In. apply list_elem_of_In in H.
  eapply elem_of_sublist; [exact H|apply sublist_take].
Qed.

Lemma in_after_first_dash c l r : after_first_dash l = Some r -> In c r -> In c l.
Proof.
  revert r. induction l as [|x l IH]; intros r; simpl; [done|].
  destruct (is_dash x); [intros [= <-]; auto|eauto].
Qed.

Lemma in_rsplit_dash_head c l : In c (rsplit_dash_head l) -> In c l.
Proof.
  unfold rsplit_dash_head. destruct (after_first_dash (rev l)) as [r|] eqn:E; [|done].
  intros H. apply in_rev in H. apply in_rev. eapply in_after_first_dash; eauto.
Qed.

Lemma in_py_slice_upto c (l : list ascii) m : In c (py_slice_upto l m) -> In c l.
Proof. unfold py_slice_upto. destruct (0 <=? m); apply in_take_ascii. Qed.

Lemma collapse_spaces_chars b l :
  (forall c, In c l -> slug_keep c = true) ->
  forall c, In c (collapse_spaces b l) -> slug_char c = true.
Proof.
  revert b. induction l as [|x l IH]; intros b Hl c; simpl; [done|].
  assert (Hx : slug_keep x = true) by (apply Hl; left; reflexivity).
  assert (Hl' : forall c, In c l -> slug_keep c = true) by (intros; apply Hl; by right).
  destruct (is_space x) eqn:Es.
  - destruct b; [apply IH, Hl'|]. intros [<-|Hc]; [reflexivity|by eapply IH].
  - intros [<-|Hc]; [|by eapply IH].
    unfold slug_keep, slug_char in *. rewrite Es in Hx. by rewrite orb_false_r in Hx.
Qed.

Lemma collapse_spaces_id b l :
  (forall c, In c l -> is_space c = false) -> collapse_spaces b l = l.
Proof.
  revert b. induction l as [|x l IH]; intros b Hl; simpl; [done|].
  rewrite (Hl x (or_introl eq_refl)). f_equal. apply IH. intros c Hc. apply Hl. by right.
Qed.

Lemma slug_char_not_space c : slug_char c = true -> is_space c = false.
Proof.
  unfold slug_char, is_lower_alnum, is_dash, is_space. intros H.
  destruct c as [[] [] [] [] [] [] [] []]; vm_compute in H |- *; congruence.
Qed.

Lemma slug_char_lower c : slug_char c = true -> py_lower_char c = c.
Proof.
  unfold slug_char, is_lower_alnum, is_dash, py_lower_char. intros H.
  destruct c as [[] [] [] [] [] [] [] []]; vm_compute in H |- *; congruence.
Qed.

Lemma slug_char_keep c : slug_char c = true -> slug_keep c = true.
Proof.
  unfold slug_char, slug_keep. intros H.
  apply orb_prop in H as [H|H]; rewrite H; [done|]. by rewrite !orb_true_r.
Qed.

Lemma drop_spaces_id l : (forall c, In c l -> is_space c = false) -> drop_spaces l = l.
Proof. destruct l as [|x l]; intros H; simpl; [done|]. by rewrite (H x (or_introl eq_refl)). Qed.

Lemma py_strip_id l : (forall c, In c l -> is_space c = false) -> py_strip l = l.
Proof.
  intros H. unfold py_strip. rewrite (drop_spaces_id l H), drop_spaces_id; [apply rev_involutive|].
  intros c Hc. apply H, in_rev, Hc.
Qed.

Lemma length_rsplit_dash_head l : (length (rsplit_dash_head l) <= length l)%nat.
Proof.
  unfold rsplit_dash_head. destruct (after_first_dash (rev l)) as [r|] eqn:E; [|done].
  rewrite length_rev. rewrite <- (length_rev l).
  revert r E. generalize (rev l). intros l'. induction l' as [|x l' IH]; intros r; simpl; [done|].
  destruct (is_dash x); [intros [= <-]; lia|]. intros E. specialize (IH r E). lia.
Qed.

Lemma length_string_of_list_ascii l : String.length (string_of_list_ascii l) = length l.
Proof. induction l as [|x l IH]; simpl; [done|]. by rewrite IH. Qed.

Lemma in_slug_filter c l : In c (filter (fun c => slug_keep c = true) l) -> slug_keep c = true.
Proof. intros H. apply list_elem_of_In, list_elem_of_filter in H. tauto. Qed.

(** The characters before truncation. *)
Lemma slug_untruncated_chars text c :
  In c (collapse_spaces false
          (py_strip (filter (fun c => slug_keep c = true)
                       (map py_lower_char (list_ascii_of_string text))))) ->
  slug_char c = true.
Proof.
  apply collapse_spaces_chars. intros c' Hc'. apply in_py_strip in Hc'. by eapply in_slug_filter.
Qed.

Lemma map_id_on {A} (f : A -> A) (P : A -> Prop) (l : list A) :
  (forall x, In x l -> P x) -> (forall x, P x -> f x = x) -> map f l = l.
Proof.
  induction l as [|x l IH]; intros Hl Hf; simpl; [done|].
  rewrite Hf by (apply Hl; by left). f_equal. apply IH; [|done]. intros; apply Hl; by right.
Qed.

Lemma filter_id_on (P : ascii -> Prop) `{forall x, Decision (P x)} (l : list ascii) :
  (forall x, In x l -> P x) -> filter P l = l.
Proof.
  induction l as [|x l IH]; intros Hl; [done|].
  rewrite filter_cons_True by (apply Hl; by left). f_equal. apply IH. intros; apply Hl; by right.
Qed.

Lemma slugify_charset_ok (text : string) (max_len : Z) :
  forall c, In c (list_ascii_of_string (slugify text max_len)) -> slug_char c = true.
Proof.
  intros c. unfold slugify. rewrite list_ascii_of_string_of_list_ascii.
  destruct (_ <? _).
  - intros H. apply in_rsplit_dash_head, in_py_slice_upto in H.
    by apply slug_untruncated_chars in H.
  - apply slug_untruncated_chars.
Qed.

(** Every character of a slug is a lower-case ASCII letter, a digit or
    a dash. *)
Theorem slugify_charset (text : string) (max_len : Z) :
  Forall (fun c => slug_char c = true) (list_ascii_of_string (slugify text max_len)).
Proof. apply List.Forall_forall. exact (slugify_charset_ok text max_len). Qed.

Lemma slugify_length_ok (text : string) (max_len : Z) :
  0 <= max_len -> Z.of_nat (String.length (slugify text max_len)) <= max_len.
Proof.
  intros Hm. unfold slugify. rewrite length_string_of_list_ascii.
  destruct (max_len <? _) eqn:E.
  - pose proof (length_rsplit_dash_head
                  (py_slice_upto (collapse_spaces false (py_strip (filter (fun c => slug_keep c = true)
                       (map py_lower_char (list_ascii_of_string text))))) max_len)) as Hr.
    unfold py_slice_upto in *. rewrite (proj2 (Z.leb_le _ _) Hm) in *.
    rewrite length_take in Hr. lia.
  - apply Z.ltb_ge in E. exact E.
Qed.

(** A slug is at most [max_len] characters long. *)
Theorem slugify_length (text : string) (max_len : Z) :
  0 <= max_len -> Z.of_nat (String.length (slugify text max_len)) <= max_len.
Proof. exact (slugify_length_ok text max_len). Qed.

(** Slugifying a slug (with the same [max_len]) gives it back. *)
Theorem slugify_idempotent (text : string) (max_len : Z) :
  0 <= max_len -> slugify (slugify text max_len) max_len = slugify text max_len.
Proof.
  intros Hm. pose proof (slugify_charset_ok text max_len) as Hc.
  pose proof (slugify_length_ok text max_len Hm) as Hl.
  revert Hc Hl. generalize (slugify text max_len). intros s Hc Hl.
  unfold slugify at 1.
  rewrite (map_id_on _ (fun c => slug_char c = true)); [|done|apply slug_char_lower].
  rewrite filter_id_on by (intros; by apply slug_char_keep, Hc).
  rewrite py_strip_id by (intros; by apply slug_char_not_space, Hc).
  rewrite collapse_spaces_id by (intros; by apply slug_char_not_space, Hc).
  rewrite <- length_string_of_list_ascii, string_of_list_ascii_of_string in *.
  rewrite (proj2 (Z.ltb_ge _ _) Hl). apply string_of_list_ascii_of_string.
Qed.

Lemma slugify_length_witness :
  0 <= 10 /\ Z.of_nat (String.length (slugify "Will customers pay more for green packaging?" 10)) <= 10.
Proof. split; [lia|]. apply slugify_length. lia. Defined.


Lemma profile_diff_count_spec_ok (p1 p2 : Profile) :
  profile_diff_count p1 p2 = diff_count_result p1 p2.
Proof.
  unfold profile_diff_count.
  apply (map_fold_weak_ind (fun r m => r = diff_count_result m p2)).
  - unfold diff_count_result.
    rewrite decide_True by apply map_Forall_empty. by rewrite map_filter_empty, map_size_empty.
  - intros i x m r Hi ->. unfold diff_count_result.
    destruct (decide (map_Forall _ (<[i:=x]> m))) as [Hf|Hf];
      pose proof Hf as Hf'; rewrite map_Forall_insert in Hf' by done.
    + destruct Hf' as [[w Hw] Hm]. rewrite (decide_True _ _ Hm). simpl. rewrite Hw.
      destruct (decide (x = w)) as [<-|Hne].
      * rewrite map_filter_insert_False by (simpl; congruence).
        by rewrite delete_id.
      * rewrite map_filter_insert_True by (simpl; congruence).
        rewrite map_size_insert_None; [f_equal; lia|].
        apply map_lookup_filter_None. by left.
    + destruct (decide (map_Forall _ m)) as [Hm|Hm]; [|done]. simpl.
      destruct (p2 !! i) eqn:E; [|done].
      exfalso. apply Hf'. split; [by eexists|done].
Qed.

(** [_profile_diff_count(p1, p2)] raises [KeyError] exactly when [p1] has
    an attribute [p2] lacks; otherwise it is the number of attributes of
    [p1] on which [p2] has another level. *)
Theorem profile_diff_count_spec (p1 p2 : Profile) :
  profile_diff_count p1 p2 = diff_count_result p1 p2.
Proof. exact (profile_diff_count_spec_ok p1 p2). Qed.

Lemma diff_filter_empty (p1 p2 : Profile)
    `{forall kv : string * string, Decision (p2 !! kv.1 <> Some kv.2)} :
  filter (fun kv : string * string => p2 !! kv.1 <> Some kv.2) p1 = ∅ <->
  forall k v, p1 !! k = Some v -> p2 !! k = Some v.
Proof.
  split.
  - intros He k v Hk. pose proof (f_equal (lookup k) He) as Hl.
    rewrite lookup_empty in Hl. apply map_lookup_filter_None in Hl as [Hl|Hl]; [congruence|].
    specialize (Hl v Hk). simpl in Hl. destruct (decide (p2 !! k = Some v)); tauto.
  - intros Hall. apply map_eq. intros k. rewrite lookup_empty.
    apply map_lookup_filter_None. right. intros v Hk. simpl. intros Hn. apply Hn, Hall, Hk.
Qed.

(** On two profiles with the same attributes, [_profile_diff_count]
    raises nothing, is symmetric, and is 0 exactly when the profiles are
    equal. *)
Theorem profile_diff_count_symmetric (p1 p2 : Profile) :
  (forall k, is_Some (p1 !! k) <-> is_Some (p2 !! k)) ->
  exists n, profile_diff_count p1 p2 = Ok n /\ profile_diff_count p2 p1 = Ok n /\
            (n = 0 <-> p1 = p2).
Proof.
  intros Hk. rewrite !profile_diff_count_spec_ok. unfold diff_count_result.
  rewrite !decide_True by (intros k v Hv; apply Hk; by eexists).
  set (F1 := filter (fun kv : string * string => p2 !! kv.1 <> Some kv.2) p1).
  set (F2 := filter (fun kv : string * string => p1 !! kv.1 <> Some kv.2) p2).
  assert (Hd : dom F1 = dom F2).
  { apply set_eq. intros k. rewrite !elem_of_dom.
    unfold F1, F2. specialize (Hk k).
    destruct (p1 !! k) as [v1|] eqn:E1, (p2 !! k) as [v2|] eqn:E2.
    - split; intros [v Hv]; apply map_lookup_filter_Some in Hv as [Hv Hp]; simpl in Hp;
        [exists v2|exists v1]; apply map_lookup_filter_Some; split; try done; simpl;
        rewrite ?E1, ?E2 in *; congruence.
    - destruct Hk as [Hk _]. by destruct (Hk (ltac:(by eexists))).
    - destruct Hk as [_ Hk]. by destruct (Hk (ltac:(by eexists))).
    - split; intros [v Hv]; apply map_lookup_filter_Some in Hv; naive_solver. }
  assert (Hs : size F1 = size F2) by (by rewrite <- !size_dom, Hd).
  exists (Z.of_nat (size F1)). split; [done|]. split; [by rewrite Hs|].
  split.
  - intros H0. assert (HF : F1 = ∅) by (apply map_size_empty_iff; lia).
    unfold F1 in HF. pose proof (proj1 (diff_filter_empty _ _) HF) as HF'. clear HF. rename HF' into HF. apply map_eq. intros k.
    destruct (p1 !! k) as [v|] eqn:E; [symmetry; by apply HF|].
    destruct (p2 !! k) eqn:E2; [|done]. exfalso.
    destruct (proj2 (Hk k) ltac:(by eexists)) as [? ?]. congruence.
  - intros <-. assert (HF : F1 = ∅) by (unfold F1; by apply diff_filter_empty).
    by rewrite HF, map_size_empty.
Qed.

Lemma profile_diff_count_symmetric_witness :
  (forall k, is_Some (example_profile "low" "X" !! k) <-> is_Some (example_profile "high" "X" !! k)) /\
  exists n, profile_diff_count (example_profile "low" "X") (example_profile "high" "X") = Ok n /\
            profile_diff_count (example_profile "high" "X") (example_profile "low" "X") = Ok n /\
            (n = 0 <-> example_profile "low" "X" = example_profile "high" "X").
Proof.
  assert (Hk : forall k, is_Some (example_profile "low" "X" !! k) <->
                         is_Some (example_profile "high" "X" !! k)).
  { intros k. unfold example_profile.
    destruct (decide (k = "price")) as [->|Hp]; [rewrite !lookup_insert_eq; split; eauto|].
    rewrite !lookup_insert_ne by congruence.
    destruct (decide (k = "brand")) as [->|Hb]; [rewrite !lookup_insert_eq; split; eauto|].
    rewrite !lookup_insert_ne by congruence. done. }
  split; [exact Hk|]. exact (profile_diff_count_symmetric _ _ Hk).
Defined.

(* Balance score: errors and order invariance *)

Lemma rfold_left_only_key_error {A B} (f : A -> B -> result A) (l : list B) a e :
  (forall a x e, f a x = Err e -> e = KeyError) -> rfold_left f l a = Err e -> e = KeyError.
Proof.
  intros Hf. revert a. induction l as [|x l IH]; intros a; simpl; [done|].
  destruct (f a x) as [a'|e'] eqn:E; simpl; [apply IH|]. intros [= <-]. by eapply Hf.
Qed.

Lemma rfold_left_ok_steps {A B} (f : A -> B -> result A) (l : list B) a r :
  rfold_left f l a = Ok r -> forall x, In x l -> exists a' a'', f a' x = Ok a''.
Proof.
  revert a. induction l as [|y l IH]; intros a; simpl; [done|].
  destruct (f a y) as [a'|e'] eqn:E; simpl; [|done].
  intros Hr x [<-|Hx]; [eauto|]. eapply IH; eauto.
Qed.

Lemma count_profile_ok_key a acc p acc' :
  count_profile a acc p = Ok acc' -> is_Some (p !! a).
Proof. destruct acc. unfold count_profile. destruct (p !! a); [by eexists|done]. Qed.

Lemma count_attr_ok_keys a css r :
  count_attr a css = Ok r -> forall p, In p (concat css) -> is_Some (p !! a).
Proof.
  unfold count_attr. rewrite rfold_left_concat. intros Hr p Hp.
  destruct (rfold_left_ok_steps _ _ _ _ Hr p Hp) as (? & ? & E).
  by eapply count_profile_ok_key.
Qed.

Lemma level_balance_ok_keys css attrs acc s :
  rfold_left (balance_attr_step css) attrs acc = Ok s ->
  forall p a, In p (concat css) -> In a (map fst attrs) -> is_Some (p !! a).
Proof.
  intros Hs p a Hp Ha. apply in_map_iff in Ha as [[a' ls] [<- Hin]].
  destruct (rfold_left_ok_steps _ _ _ _ Hs _ Hin) as (acc' & s' & E).
  unfold balance_attr_step in E. simpl in E.
  destruct (count_attr a' css) as [ct|] eqn:Ec; [|done].
  by eapply count_attr_ok_keys.
Qed.

Lemma level_balance_errors_key css attrs acc e :
  rfold_left (balance_attr_step css) attrs acc = Err e -> e = KeyError.
Proof.
  apply rfold_left_only_key_error. intros s [a ls] e'. unfold balance_attr_step.
  destruct (count_attr a css) as [[counts total]|e''] eqn:E; simpl; [done|].
  intros [= <-]. unfold count_attr in E. rewrite rfold_left_concat in E.
  revert E. apply rfold_left_only_key_error.
  intros [c t] p e3. unfold count_profile. destruct (p !! a); congruence.
Qed.

(** [_level_balance_score] raises [KeyError] exactly when some profile
    slot shows a profile without one of the specification's attributes;
    it raises nothing else. *)
Theorem level_balance_score_key_error (choice_sets : list ChoiceTask) (attributes : AttrSpec) :
  (level_balance_score choice_sets attributes = Err KeyError <->
   exists p a, In p (concat choice_sets) /\ In a (map fst attributes) /\ p !! a = None) /\
  forall e, level_balance_score choice_sets attributes = Err e -> e = KeyError.
Proof.
  unfold level_balance_score. split; [split|].
  - intros Herr.
    destruct (decide (Exists (fun p : Profile => Exists (fun a => p !! a = None)
                                                    (map fst attributes))
                        (concat choice_sets))) as [Hx|Hx].
    + apply Exists_exists in Hx as (p & Hp & Hx). apply Exists_exists in Hx as (a & Ha & Hn).
      exists p, a. by rewrite <- !list_elem_of_In.
    + exfalso.
      destruct (level_balance_fold_ok choice_sets attributes 0%Q) as (s & Hs & _); [|congruence].
      intros p a Hp Ha. destruct (p !! a) eqn:E; [by eexists|]. exfalso. apply Hx.
      apply Exists_exists. exists p. rewrite list_elem_of_In. split; [done|].
      apply Exists_exists. exists a. by rewrite list_elem_of_In.
  - intros (p & a & Hp & Ha & Hn).
    destruct (rfold_left (balance_attr_step choice_sets) attributes 0%Q) as [s|e] eqn:E.
    + pose proof (level_balance_ok_keys _ _ _ _ E p a Hp Ha) as [? Hs]. congruence.
    + f_equal. by eapply level_balance_errors_key.
  - intros e. apply level_balance_errors_key.
Qed.

Lemma rfold_left_perm {A B} (f : A -> B -> result A) :
  (forall a x y, rbind (f a x) (fun b => f b y) = rbind (f a y) (fun b => f b x)) ->
  forall l1 l2, l1 ≡ₚ l2 -> forall a, rfold_left f l1 a = rfold_left f l2 a.
Proof.
  intros Hc l1 l2 Hp. induction Hp as [|x l1 l2 _ IH|x y l|l1 l2 l3 _ IH1 _ IH2]; intros a.
  - done.
  - simpl. destruct (f a x); simpl; [apply IH|done].
  - simpl. specialize (Hc a y x).
    destruct (f a y) as [b1|e1], (f a x) as [b2|e2]; simpl in *.
    + destruct (f b1 x) as [c1|] eqn:E1; rewrite ?E1 in Hc; rewrite <- Hc; done.
    + destruct (f b1 x) eqn:E1; simpl; congruence.
    + by rewrite <- Hc.
    + done.
  - by rewrite IH1, IH2.
Qed.

Lemma rfold_left_ext {A B} (f g : A -> B -> result A) (l : list B) a :
  (forall a x, f a x = g a x) -> rfold_left f l a = rfold_left g l a.
Proof.
  intros Hfg. revert a. induction l as [|x l IH]; intros a; simpl; [done|].
  rewrite Hfg. destruct (g a x); simpl; [apply IH|done].
Qed.

Lemma count_profile_comm attr acc p q :
  rbind (count_profile attr acc p) (fun b => count_profile attr b q) =
  rbind (count_profile attr acc q) (fun b => count_profile attr b p).
Proof.
  destruct acc as [counts total]. unfold count_profile.
  destruct (p !! attr) as [lp|] eqn:Ep, (q !! attr) as [lq|] eqn:Eq; simpl;
    rewrite ?Ep, ?Eq; try done.
  f_equal. destruct (decide (lp = lq)) as [<-|Hne].
  - done.
  - rewrite !lookup_insert_ne by congruence. f_equal.
    by apply insert_insert_ne.
Qed.

Lemma count_attr_perm attr (css1 css2 : list ChoiceTask) :
  concat css1 ≡ₚ concat css2 -> count_attr attr css1 = count_attr attr css2.
Proof.
  intros Hp. unfold count_attr. rewrite !rfold_left_concat.
  apply rfold_left_perm; [apply count_profile_comm|done].
Qed.

Lemma level_balance_score_perm_ok (css1 css2 : list ChoiceTask) (attributes : AttrSpec) :
  concat css1 ≡ₚ concat css2 ->
  level_balance_score css1 attributes = level_balance_score css2 attributes.
Proof.
  intros Hp. unfold level_balance_score. apply rfold_left_ext.
  intros s [a ls]. unfold balance_attr_step. by rewrite (count_attr_perm a css1 css2 Hp).
Qed.

(** [_level_balance_score] only depends on the profile slots as a
    multiset: reordering the profiles within tasks, or the tasks, or
    moving profiles between tasks, leaves the result unchanged. *)
Theorem level_balance_score_perm (css1 css2 : list ChoiceTask) (attributes : AttrSpec) :
  concat css1 ≡ₚ concat css2 ->
  level_balance_score css1 attributes = level_balance_score css2 attributes.
Proof. exact (level_balance_score_perm_ok css1 css2 attributes). Qed.

Lemma level_balance_score_perm_witness :
  concat [[example_profile "low" "X"; example_profile "high" "Y"]]
    ≡ₚ concat [[example_profile "high" "Y"]; [example_profile "low" "X"]] /\
  level_balance_score [[example_profile "low" "X"; example_profile "high" "Y"]] example_attributes
  = level_balance_score [[example_profile "high" "Y"]; [example_profile "low" "X"]] example_attributes.
Proof.
  assert (Hp : concat [[example_profile "low" "X"; example_profile "high" "Y"]]
                 ≡ₚ concat [[example_profile "high" "Y"]; [example_profile "low" "X"]])
    by (simpl; apply Permutation_swap).
  split; [exact Hp|]. exact (level_balance_score_perm _ _ _ Hp).
Defined.

Lemma Forall2_perm_concat (l1 l2 : list ChoiceTask) :
  Forall2 (fun a b => a ≡ₚ b) l1 l2 -> concat l1 ≡ₚ concat l2.
Proof. induction 1 as [|x y l1 l2 Hxy _ IH]; simpl; [done|]. by rewrite Hxy, IH. Qed.

Section VersionInvariants.
Context `{PyRandomSpec St}.

Lemma shuffle_all_perm (css : list ChoiceTask) st css' st' :
  shuffle_all css st = Ok (css', st') -> Forall2 (fun a b => a ≡ₚ b) css css'.
Proof.
  revert st css' st'. induction css as [|cs rest IH]; intros st css' st'; simpl.
  - intros [= <- _]. constructor.
  - cbv [mbind shuffle mret].
    pose proof (py_shuffle_perm cs st) as Hp.
    destruct (py_shuffle cs st) as [cs' s1]. simpl in Hp. fold (@mbind St).
    destruct (shuffle_all rest s1) as [[rest' s2]|e] eqn:E; [|discriminate].
    intros [= <- _]. constructor; [done|]. by eapply IH.
Qed.

Lemma gen_attempt_score (P : list Profile) attrs n ppt md st css sc st' :
  gen_attempt P attrs n ppt md st = Ok ((css, sc), st') -> level_balance_score css attrs = Ok sc.
Proof.
  cbv [gen_attempt mbind shuffle].
  destruct (py_shuffle P st) as [av s1].
  destruct (gen_tasks P ppt md (Z.to_nat n) av s1) as [[css' s2]|e]; [|discriminate].
  cbv [lift]. destruct (level_balance_score css' attrs) eqn:E; [|discriminate].
  cbv [mret]. by intros [= <- <- _].
Qed.

(** Any property of every attempt holds of the best one. *)
Lemma search_loop_inv (Qp : list ChoiceTask * Q -> Prop) (P : list Profile) attrs n ppt md k
    best st best' st' :
  (forall s r s', gen_attempt P attrs n ppt md s = Ok (r, s') -> Qp r) ->
  (forall b, best = Some b -> Qp b) ->
  search_loop P attrs n ppt md k best st = Ok (best', st') ->
  forall b, best' = Some b -> Qp b.
Proof.
  intros Hatt. revert best st. induction k as [|k IH]; intros best st Hbest; simpl.
  - intros [= <- _]. exact Hbest.
  - unfold mbind.
    destruct (gen_attempt P attrs n ppt md st) as [[att s1]|e] eqn:E; [|discriminate].
    apply IH. pose proof (Hatt _ _ _ E) as Ha.
    destruct best as [[cs0 sc0]|]; simpl;
      [destruct (Qlt_le_dec att.2 sc0)|]; intros b [= <-]; auto.
Qed.

Lemma build_version_inv (Qp : list ChoiceTask * Q -> Prop) (P : list Profile) attrs n ppt md v
    st dv st' :
  (forall s r s', gen_attempt P attrs n ppt md s = Ok (r, s') -> Qp r) ->
  build_version P attrs n ppt md v st = Ok (dv, st') ->
  exists css sc, Qp (css, sc) /\ Forall2 (fun a b => a ≡ₚ b) css (choice_sets dv) /\
                 balance_score dv = py_round4 sc.
Proof.
  intros Hatt. cbv [build_version mbind generate_one_version].
  destruct (search_loop P attrs n ppt md _ None st) as [[best s1]|e] eqn:E; [|discriminate].
  destruct best as [[css sc]|]; [|discriminate].
  pose proof (search_loop_inv Qp P attrs n ppt md _ None st _ _ Hatt
                ltac:(intros ? ?; discriminate) E (css, sc) eq_refl) as Hq.
  fold (@mbind St).
  destruct (shuffle_all css s1) as [[css' s2]|e] eqn:Es; [|discriminate].
  cbv [mret]. intros [= <- _]. exists css, sc. split; [done|]. split; [|done].
  by eapply shuffle_all_perm.
Qed.

(** The versions [generate_design] writes are built by [build_version]
    from the enumerated profiles and the adjusted parameters. *)
Lemma generate_design_built (spec : DesignSpec) (out : DesignOutput) :
  generate_design spec = Ok out ->
  let attributes := spec_attributes spec in
  let n_tasks := get_or (spec_tasks_per_version spec) 8 in
  let profiles_per_task := get_or (spec_profiles_per_task spec) 3 in
  let min_diff0 := get_or (spec_min_attribute_diff spec) 2 in
  let n_attrs := Z.of_nat (length attributes) in
  let min_diff := if n_attrs <? min_diff0 then Z.max 1 (n_attrs - 1) else min_diff0 in
  profiles_per_task <= Z.of_nat (length (all_profiles attributes)) /\
  Forall (fun dv => exists v s s', build_version (all_profiles attributes) attributes n_tasks
                                     profiles_per_task min_diff v s = Ok (dv, s'))
    (out_versions out).
Proof.
  unfold generate_design. destruct (_ <? _) eqn:Elt; [discriminate|].
  destruct (versions_loop _ _ _ _ _ _ _ _) as [[dvs s]|e] eqn:E; [|discriminate].
  intros [= <-]. cbv zeta. split; [by apply Z.ltb_ge in Elt|]. simpl.
  apply versions_loop_seeded in E. induction E as [|v dv vs dvs [s' Hb] _ IH]; constructor; eauto.
Qed.

End VersionInvariants.

(* Task sizes *)

Lemma fill_min_diff_length ppt md (task cands T : list Profile) :
  fill_min_diff ppt md task cands = Ok T ->
  Z.of_nat (length T) <= Z.max (Z.of_nat (length task)) ppt.
Proof.
  revert task. induction cands as [|c cs IH]; intros task; simpl.
  - intros [= <-]. lia.
  - destruct (ppt <=? Z.of_nat (length task)) eqn:E.
    + intros [= <-]. lia.
    + apply Z.leb_gt in E.
      destruct (all_min_diff md c task) as [[]|e]; simpl; [| |discriminate].
      * intros HT%IH. rewrite length_app in HT. simpl in HT. lia.
      * intros HT%IH. lia.
Qed.

Lemma fill_any_length ppt (task rem : list Profile) :
  Z.of_nat (length task) <= ppt <= Z.of_nat (length task + length rem) ->
  Z.of_nat (length (fill_any ppt task rem)) = ppt.
Proof.
  revert task. induction rem as [|c cs IH]; intros task Hb; simpl in *.
  - lia.
  - destruct (ppt <=? Z.of_nat (length task)) eqn:E.
    + apply Z.leb_le in E. lia.
    + apply Z.leb_gt in E. apply IH. rewrite length_app. simpl. lia.
Qed.

Lemma length_filter_notin (P T : list Profile) (Q : Profile -> Prop)
    `{forall p : Profile, Decision (Q p)} :
  (forall p, Q p <-> p ∉ T) ->
  NoDup P -> T ⊆+ P -> (length (filter Q P) + length T = length P)%nat.
Proof.
  intros HQ HP HT. pose proof (submseteq_NoDup _ _ HT HP) as HTn.
  assert (Hin : filter (fun p => p ∈ T) P ≡ₚ T).
  { apply NoDup_Permutation; [by apply NoDup_filter|done|].
    intros x. rewrite list_elem_of_filter. split; [tauto|].
    intros Hx. split; [done|]. by eapply elem_of_submseteq. }
  pose proof (filter_app_complement (fun p => p ∈ T) P) as Hc.
  apply Permutation_length in Hc. rewrite length_app in Hc.
  rewrite (Permutation_length Hin) in Hc.
  erewrite (@list_filter_iff Profile (fun x => x ∉ T) Q _ H P) in Hc by (intros; symmetry; apply HQ).
  lia.
Qed.

Section TaskSizes.
Context `{PyRandomSpec St}.

Lemma gen_task_size (P : list Profile) ppt md avail st task avail' st' :
  NoDup P -> ppt <= Z.of_nat (length P) ->
  (forall x, x ∈ avail -> x ∈ P) ->
  gen_task P ppt md avail st = Ok ((task, avail'), st') ->
  Z.of_nat (length task) = Z.max 1 ppt.
Proof.
  intros HnP Hppt Hav. destruct (refill_spec P avail st Hav) as (a1 & s1 & Hr & Ha1 & _).
  cbv [gen_task mbind]. rewrite Hr.
  destruct (randint 0 _ s1) as [[i s2]|e]; [|discriminate].
  cbv [lift]. destruct (py_pop a1 i) as [[x a2]|e] eqn:Hpop; [|discriminate].
  destruct (py_pop_inv _ _ _ _ Hpop) as [Hx Ha2].
  cbv [shuffle].
  destruct (py_shuffle (filter (fun p => p <> x) P) s2) as [cands s3] eqn:Hc.
  pose proof (py_shuffle_perm (filter (fun p => p <> x) P) s2) as Hcp.
  rewrite Hc in Hcp. simpl in Hcp.
  destruct (fill_min_diff ppt md [x] cands) as [T|e] eqn:HT; [|discriminate].
  pose proof (fill_min_diff_length _ _ _ _ _ HT) as HTl. simpl in HTl.
  destruct (fill_min_diff_shape _ _ _ _ _ HT) as (G & -> & HG).
  assert (Hhead : [x] ++ G ⊆+ P) by (apply (task_head_submseteq P G cands x); auto).
  assert (HG1 : 1 <= Z.of_nat (length ([x] ++ G))) by (simpl; lia).
  destruct (Z.of_nat (length ([x] ++ G)) <? ppt) eqn:Elt.
  - apply Z.ltb_lt in Elt.
    destruct (py_shuffle (filter (fun p => p ∉ [x] ++ G) P) s3) as [R s4] eqn:HR.
    pose proof (py_shuffle_perm (filter (fun p => p ∉ [x] ++ G) P) s3) as HRp.
    rewrite HR in HRp. simpl in HRp.
    cbv [mret]. intros [= <- _ _].
    pose proof (Permutation_length HRp) as HlR'.
    match type of HRp with _ ≡ₚ @filter _ _ _ ?Q ?D _ =>
      pose proof (@length_filter_notin P ([x] ++ G) Q D (fun p => iff_refl _) HnP Hhead) as HlR
    end.
    rewrite <- HlR' in HlR. change ([x] ++ G) with (x :: G) in *.
    rewrite fill_any_length; lia.
  - apply Z.ltb_ge in Elt. cbv [mret]. intros [= <- _ _].
    change ([x] ++ G) with (x :: G) in *. lia.
Qed.

Lemma gen_tasks_size (P : list Profile) ppt md k avail st css st' :
  NoDup P -> ppt <= Z.of_nat (length P) ->
  (forall x, x ∈ avail -> x ∈ P) ->
  gen_tasks P ppt md k avail st = Ok (css, st') ->
  length css = k /\ Forall (fun t => Z.of_nat (length t) = Z.max 1 ppt) css.
Proof.
  intros HnP Hppt. revert avail st css st'.
  induction k as [|k IH]; intros avail st css st' Hav; simpl.
  - intros [= <- _]. split; [done|constructor].
  - cbv [mbind].
    destruct (gen_task P ppt md avail st) as [[[task avail'] s1]|e] eqn:E; [|discriminate].
    destruct (gen_task_sub _ _ _ _ _ _ _ _ Hav E) as [_ Hav'].
    pose proof (gen_task_size _ _ _ _ _ _ _ _ HnP Hppt Hav E) as Hsz.
    fold (@mbind St). simpl.
    destruct (gen_tasks P ppt md k avail' s1) as [[rest s2]|e] eqn:E2; [|discriminate].
    cbv [mret]. intros [= <- _].
    destruct (IH _ _ _ _ Hav' E2) as [Hl Hf]. simpl. split; [by rewrite Hl|by constructor].
Qed.

Lemma gen_attempt_size (P : list Profile) attrs n ppt md st r st' :
  NoDup P -> ppt <= Z.of_nat (length P) ->
  gen_attempt P attrs n ppt md st = Ok (r, st') ->
  length r.1 = Z.to_nat n /\ Forall (fun t => Z.of_nat (length t) = Z.max 1 ppt) r.1.
Proof.
  intros HnP Hppt. cbv [gen_attempt mbind shuffle].
  pose proof (py_shuffle_perm P st) as Hp.
  destruct (py_shuffle P st) as [av s1]. simpl in Hp.
  destruct (gen_tasks P ppt md (Z.to_nat n) av s1) as [[css s2]|e] eqn:E; [|discriminate].
  cbv [lift]. destruct (level_balance_score css attrs); [|discriminate].
  cbv [mret]. intros [= <- _]. simpl.
  eapply gen_tasks_size; [done|done| |exact E]. intros x. by rewrite Hp.
Qed.

End TaskSizes.

Lemma Forall2_in_r {A B} (R : A -> B -> Prop) l1 l2 y :
  Forall2 R l1 l2 -> In y l2 -> exists x, In x l1 /\ R x y.
Proof.
  induction 1 as [|x y' l1 l2 Hxy _ IH]; [done|].
  intros [<-|Hy]; [exists x; split; [by left|done]|].
  destruct (IH Hy) as (x' & Hx' & HR). exists x'. split; [by right|done].
Qed.

Section DesignExtras.
Context `{PyRandomSpec St}.

(** The [balance_score] written for a version is [round(s, 4)] of the
    score [s] of the version's own choice sets, as written (after the
    options of each task were shuffled). *)
Theorem generate_design_balance_score (spec : DesignSpec) (out : DesignOutput) :
  generate_design spec = Ok out ->
  forall dv, In dv (out_versions out) ->
  exists s, level_balance_score (choice_sets dv) (spec_attributes spec) = Ok s /\
            balance_score dv = py_round4 s.
Proof.
  intros E. destruct (generate_design_built spec out E) as [_ Hall]. cbv zeta in Hall.
  intros dv Hdv. rewrite List.Forall_forall in Hall. destruct (Hall dv Hdv) as (v & s & s' & Hb).
  destruct (build_version_inv (fun r => level_balance_score r.1 (spec_attributes spec) = Ok r.2)
              _ _ _ _ _ _ _ _ _ ltac:(intros ? [? ?] ? ?%gen_attempt_score; done) Hb)
    as (css & sc & Hs & Hp & Hbs).
  exists sc. split; [|done]. simpl in Hs. rewrite <- Hs. symmetry.
  apply level_balance_score_perm_ok. by apply Forall2_perm_concat.
Qed.

(** When the enumerated profiles are pairwise distinct, every version
    has [tasks_per_version] tasks (none when it is not positive) and
    every task shows [max(1, profiles_per_task)] profiles. *)
Theorem generate_design_task_sizes (spec : DesignSpec) (out : DesignOutput) :
  generate_design spec = Ok out ->
  NoDup (all_profiles (spec_attributes spec)) ->
  forall dv, In dv (out_versions out) ->
  length (choice_sets dv) = Z.to_nat (get_or (spec_tasks_per_version spec) 8) /\
  forall task, In task (choice_sets dv) ->
    Z.of_nat (length task) = Z.max 1 (get_or (spec_profiles_per_task spec) 3).
Proof.
  intros E Hnd. destruct (generate_design_built spec out E) as [Hppt Hall]. cbv zeta in Hppt, Hall.
  intros dv Hdv. rewrite List.Forall_forall in Hall. destruct (Hall dv Hdv) as (v & s & s' & Hb).
  destruct (build_version_inv
              (fun r => length r.1 = Z.to_nat (get_or (spec_tasks_per_version spec) 8) /\
                        Forall (fun t => Z.of_nat (length t)
                                         = Z.max 1 (get_or (spec_profiles_per_task spec) 3)) r.1)
              _ _ _ _ _ _ _ _ _
              (fun s0 r s0' Ha => gen_attempt_size _ _ _ _ _ _ _ _ Hnd Hppt Ha) Hb)
    as (css & sc & [Hl Hf] & Hp & _).
  simpl in Hl, Hf. split.
  - rewrite <- Hl. symmetry. by apply Forall2_length in Hp.
  - intros task Ht. destruct (Forall2_in_r _ _ _ _ Hp Ht) as (t0 & Ht0 & Hperm).
    rewrite List.Forall_forall in Hf. rewrite <- (Permutation_length Hperm). by apply Hf.
Qed.

End DesignExtras.

Lemma slugify_idempotent_witness :
  0 <= 20 /\
  slugify (slugify "  Does  PRICE matter -- or Brand?  " 20) 20
  = slugify "  Does  PRICE matter -- or Brand?  " 20.
Proof. split; [lia|]. apply slugify_idempotent. lia. Defined.

Lemma generate_design_balance_score_witness :
  exists out, generate_design (St:=Z) example_design = Ok out /\
    forall dv, In dv (out_versions out) ->
      exists s, level_balance_score (choice_sets dv) (spec_attributes example_design) = Ok s /\
                balance_score dv = py_round4 s.
Proof.
  lazymatch eval vm_compute in (generate_design (St:=Z) example_design) with
  | Ok ?o =>
      assert (E : generate_design (St:=Z) example_design = Ok o) by (vm_compute; reflexivity);
      exists o; split; [exact E|];
      exact (generate_design_balance_score (St:=Z) example_design o E)
  end.
Defined.

Lemma generate_design_task_sizes_witness :
  exists out, generate_design (St:=Z) example_design = Ok out /\
    NoDup (all_profiles (spec_attributes example_design)) /\
    forall dv, In dv (out_versions out) ->
      length (choice_sets dv) = Z.to_nat (get_or (spec_tasks_per_version example_design) 8) /\
      forall task, In task (choice_sets dv) ->
        Z.of_nat (length task) = Z.max 1 (get_or (spec_profiles_per_task example_design) 3).
Proof.
  assert (Hnd : NoDup (all_profiles (spec_attributes example_design))) by solve_nodup.
  lazymatch eval vm_compute in (generate_design (St:=Z) example_design) with
  | Ok ?o =>
      assert (E : generate_design (St:=Z) example_design = Ok o) by (vm_compute; reflexivity);
      exists o; split; [exact E|]; split; [exact Hnd|];
      exact (generate_design_task_sizes (St:=Z) example_design o E Hnd)
  end.
Defined.

(* ================================================================== *)
(** ** Further properties: estimator, importance, simulator *)

Lemma chosen_get_count_level_gen prof names lc a l :
  chosen_get (fold_left (count_level prof) names lc) a l
  = chosen_get lc a l + level_weight names a l prof.
Proof.
  unfold level_weight. revert lc. induction names as [|n names IH]; intros lc; simpl; [lia|].
  rewrite IH. rewrite filter_cons. unfold count_level, chosen_get.
  destruct (decide (n = a)) as [->|Hne]; simpl.
  - destruct (prof !! a) as [lv|] eqn:Hlv.
    + rewrite lookup_insert_eq. simpl. destruct (decide (lv = l)) as [->|Hne].
      * rewrite lookup_insert_eq, decide_True by done. simpl. lia.
      * rewrite lookup_insert_ne by done. rewrite decide_False by congruence. lia.
    + rewrite decide_False by done. lia.
  - destruct (prof !! n); [|lia]. rewrite lookup_insert_ne by congruence. lia.
Qed.

Lemma count_chosen_weights records attributes lc a l :
  chosen_get (fold_left (count_record attributes) records lc) a l
  = chosen_get lc a l
    + fold_right Z.add 0 (map (level_weight (map fst attributes) a l) (omap chosen_profile records)).
Proof.
  revert lc. induction records as [|r records IH]; intros lc; simpl; [lia|].
  rewrite IH. unfold count_record. destruct (chosen_profile r) as [prof|]; simpl.
  2:{ reflexivity. }
  rewrite chosen_get_count_level_gen. unfold omap. simpl. lia.
Qed.

Lemma Zsum_perm {A} (f : A -> Z) (l1 l2 : list A) :
  l1 ≡ₚ l2 -> fold_right Z.add 0 (map f l1) = fold_right Z.add 0 (map f l2).
Proof. induction 1; simpl; lia. Qed.

Lemma total_choices_omap records :
  total_choices records = Z.of_nat (length (omap chosen_profile records)).
Proof.
  unfold total_choices. f_equal. induction records as [|r records IH]; simpl; [done|].
  rewrite filter_cons. destruct (chosen_profile r); simpl; [by rewrite IH|done].
Qed.

Lemma fold_left_ext_pt {A B} (f g : A -> B -> A) (l : list B) a :
  (forall a x, f a x = g a x) -> fold_left f l a = fold_left g l a.
Proof. intros Hfg. revert a. induction l as [|x l IH]; intros a; simpl; [done|]. by rewrite Hfg. Qed.

Lemma utilities_step_ext lc1 lc2 total acc attr :
  (forall a l, chosen_get lc1 a l = chosen_get lc2 a l) ->
  utilities_step lc1 total acc attr = utilities_step lc2 total acc attr.
Proof.
  intros Hc. destruct attr as [a ls]. unfold utilities_step.
  destruct (decide _); [done|].
  rewrite (fold_left_ext_pt _
             (fun au level => dict_set level
                (level_utility (chosen_get lc2 a level) total (1 / INR (length ls))) au))
    by (intros; by rewrite Hc).
  done.
Qed.

(** [_compute_utilities] only looks at the chosen profiles as a multiset:
    records whose choice was "none", the order of the records, their task
    numbers and their agent traits do not change the utilities. *)
Theorem compute_utilities_chosen_only (records1 records2 : list ChoiceRecord) (attributes : AttrSpec) :
  omap chosen_profile records1 ≡ₚ omap chosen_profile records2 ->
  compute_utilities records1 attributes = compute_utilities records2 attributes.
Proof.
  intros Hp. unfold compute_utilities.
  rewrite !total_choices_omap, (Permutation_length Hp).
  apply rfold_left_ext. intros acc x. apply utilities_step_ext.
  intros a l. unfold count_chosen. rewrite !count_chosen_weights. f_equal. by apply Zsum_perm.
Qed.

Lemma utilities_fold_errors lc total (attributes : AttrSpec) acc :
  (rfold_left (utilities_step lc total) attributes acc = Err ZeroDivisionError <->
   exists a, In (a, []) attributes) /\
  forall e, rfold_left (utilities_step lc total) attributes acc = Err e -> e = ZeroDivisionError.
Proof.
  revert acc. induction attributes as [|[a ls] attributes IH]; intros acc; simpl.
  { split; [split; [done|intros [? []]]|done]. }
  unfold utilities_step at 1. destruct (decide (length ls = 0%nat)) as [Hl|Hl]; simpl.
  - apply nil_length_inv in Hl as ->. split; [|by intros e [= ->]].
    split; [intros _; exists a; by left|done].
  - match goal with |- context [rfold_left _ attributes ?acc'] => destruct (IH acc') as [IH1 IH2] end.
    split; [|done].
    rewrite IH1. split; intros [a' Ha']; exists a'; [by right|].
    destruct Ha' as [[= -> ->]|Ha']; [simpl in Hl; lia|done].
Qed.

(** [_compute_utilities] raises exactly when an attribute has no levels,
    and then [ZeroDivisionError], whatever the records. *)
Theorem compute_utilities_errors (records : list ChoiceRecord) (attributes : AttrSpec) :
  (compute_utilities records attributes = Err ZeroDivisionError <->
   exists a, In (a, []) attributes) /\
  forall e, compute_utilities records attributes = Err e -> e = ZeroDivisionError.
Proof. apply utilities_fold_errors. Qed.

Lemma Rsum_shift (l : list R) (m : R) :
  (fold_right Rplus 0 (map (fun x => x - m) l) = fold_right Rplus 0 l - INR (length l) * m)%R.
Proof.
  induction l as [|x l IH]; simpl; [lra|]. rewrite IH. destruct (length l); simpl; lra.
Qed.

Lemma centered_spec_sum (vals : list (string * R)) :
  vals <> [] -> (fold_right Rplus 0 (map snd (centered_spec vals)) = 0)%R.
Proof.
  intros Hv. unfold centered_spec. rewrite map_map. simpl.
  rewrite <- (map_map snd (fun x => x - _)%R), Rsum_shift, length_map.
  assert (0 < INR (length vals))%R by (apply lt_0_INR; destruct vals; [done|simpl; lia]).
  field. lra.
Qed.

(** When the attribute names are distinct and every attribute has at
    least one level, all distinct, [_compute_utilities] returns one entry
    per attribute, in order, listing the attribute's levels in order,
    and the utilities of each attribute sum to 0. *)
Theorem compute_utilities_centered (records : list ChoiceRecord) (attributes : AttrSpec) :
  NoDup (map fst attributes) ->
  (forall a ls, In (a, ls) attributes -> ls <> [] /\ NoDup ls) ->
  exists ut, compute_utilities records attributes = Ok ut /\
    map fst ut = map fst attributes /\
    Forall2 (fun au al => map fst au.2 = al.2 /\ (fold_right Rplus 0 (map snd au.2) = 0)%R)
      ut attributes.
Proof.
  intros Hnd Hwf. exists (utilities_spec records attributes).
  split; [by apply compute_utilities_formula|].
  unfold utilities_spec. rewrite map_map. split; [done|].
  induction attributes as [|[a ls] attributes IH]; simpl; constructor.
  - simpl. destruct (Hwf a ls (or_introl eq_refl)) as [Hls _]. split.
    + unfold centered_spec. rewrite map_map. simpl. rewrite map_map. apply map_id.
    + apply centered_spec_sum. by destruct ls.
  - apply IH; [by apply NoDup_cons in Hnd as [_ ?]|].
    intros a' ls' H. apply (Hwf a'). by right.
Qed.

Lemma compute_utilities_centered_witness :
  NoDup (map fst example_attributes) /\
  (forall a ls, In (a, ls) example_attributes -> ls <> [] /\ NoDup ls) /\
  exists ut, compute_utilities one_choice example_attributes = Ok ut /\
    map fst ut = map fst example_attributes /\
    Forall2 (fun au al => map fst au.2 = al.2 /\ (fold_right Rplus 0 (map snd au.2) = 0)%R)
      ut example_attributes.
Proof.
  assert (Hnd : NoDup (map fst example_attributes)) by solve_nodup.
  assert (Hwf : forall a ls, In (a, ls) example_attributes -> ls <> [] /\ NoDup ls).
  { intros a ls [[= <- <-]|[[= <- <-]|[]]]; (split; [done|solve_nodup]). }
  split; [exact Hnd|]. split; [exact Hwf|].
  exact (compute_utilities_centered one_choice example_attributes Hnd Hwf).
Defined.

Lemma compute_utilities_chosen_only_witness :
  omap chosen_profile
    (one_choice ++ [{| rec_task := 2; chosen_profile := None; agent_traits := ∅ |}])
    ≡ₚ omap chosen_profile
         ([{| rec_task := 3; chosen_profile := None; agent_traits := {["seg" := "b"]} |}]
          ++ one_choice) /\
  compute_utilities
    (one_choice ++ [{| rec_task := 2; chosen_profile := None; agent_traits := ∅ |}])
    example_attributes
  = compute_utilities
      ([{| rec_task := 3; chosen_profile := None; agent_traits := {["seg" := "b"]} |}]
       ++ one_choice) example_attributes.
Proof.
  assert (Hp : omap chosen_profile
    (one_choice ++ [{| rec_task := 2; chosen_profile := None; agent_traits := ∅ |}])
    ≡ₚ omap chosen_profile
         ([{| rec_task := 3; chosen_profile := None; agent_traits := {["seg" := "b"]} |}]
          ++ one_choice)) by reflexivity.
  split; [exact Hp|]. exact (compute_utilities_chosen_only _ _ _ Hp).
Defined.

Lemma dict_set_Forall {V} (P : string * V -> Prop) k v (d : list (string * V)) :
  Forall P d -> P (k, v) -> Forall P (dict_set k v d).
Proof.
  induction d as [|[k' v'] d IH]; intros Hd Hkv; simpl; [by constructor|].
  apply Forall_cons in Hd as [Hkv' Hd].
  destruct (decide (k = k')); constructor; auto.
Qed.

Lemma fold_dict_set_Forall {A V} (P : string * V -> Prop) (key : A -> string) (val : A -> V)
    (xs : list A) (d : list (string * V)) :
  (forall x, In x xs -> P (key x, val x)) -> Forall P d ->
  Forall P (fold_left (fun d x => dict_set (key x) (val x) d) xs d).
Proof.
  revert d. induction xs as [|x xs IH]; intros d Hx Hd; simpl; [done|].
  apply IH; [intros y Hy; apply Hx; by right|]. apply dict_set_Forall; [done|]. apply Hx. by left.
Qed.

Lemma Rsum_ge_member (l : list R) (x : R) :
  (forall y, In y l -> 0 <= y)%R -> In x l -> (x <= fold_right Rplus 0 l)%R.
Proof.
  induction l as [|y l IH]; intros Hl Hx; [done|]. simpl.
  assert (0 <= fold_right Rplus 0 l)%R.
  { clear IH Hx. induction l as [|z l IHl]; simpl; [lra|].
    assert (0 <= z)%R by (apply Hl; right; left; done).
    assert (0 <= fold_right Rplus 0 l)%R by (apply IHl; intros w [<-|Hw]; apply Hl; [by left|by right; right]).
    lra. }
  destruct Hx as [<-|Hx]; [lra|].
  assert (0 <= y)%R by (apply Hl; by left).
  assert (x <= fold_right Rplus 0 l)%R by (apply IH; [intros z Hz; apply Hl; by right|done]).
  lra.
Qed.

(** Every importance [_compute_importance] reports lies between 0 and
    100. *)
Theorem compute_importance_bounds (utilities : UtilityTable) :
  Forall (fun kv : string * R => 0 <= kv.2 <= 100)%R (compute_importance utilities).
Proof.
  unfold compute_importance.
  set (ranges := fold_left _ utilities []).
  assert (Hr : Forall (fun kv : string * R => 0 <= kv.2)%R ranges).
  { apply (fold_dict_set_Forall (fun kv : string * R => 0 <= kv.2)%R
             (fun au : string * list (string * R) => au.1) (fun au => attr_range au.2));
      [intros; apply attr_range_nonneg|constructor]. }
  set (total := py_sum (map snd ranges)).
  assert (Htot : total = fold_right Rplus 0%R (map snd ranges)).
  { unfold total, py_sum. rewrite fold_left_Rplus. lra. }
  apply (fold_dict_set_Forall (fun kv : string * R => 0 <= kv.2 <= 100)%R
           (fun ar : string * R => ar.1)
           (fun ar => if Rlt_dec 0 total then (ar.2 / total * 100)%R else 0%R));
    [|constructor].
  intros [k r] Hin. simpl. destruct (Rlt_dec 0 total) as [Hpos|_]; [|lra].
  rewrite List.Forall_forall in Hr. pose proof (Hr _ Hin) as Hr0. simpl in Hr0.
  assert (r <= total)%R.
  { rewrite Htot. apply Rsum_ge_member.
    - intros y (kv & <- & Hkv)%in_map_iff. by apply Hr.
    - apply in_map_iff. by exists (k, r). }
  split.
  - apply Rmult_le_pos; [|lra]. unfold Rdiv. apply Rmult_le_pos; [lra|]. apply Rlt_le, Rinv_0_lt_compat; lra.
  - assert (r / total <= 1)%R.
    { apply (Rmult_le_reg_r total); [lra|]. unfold Rdiv.
      rewrite Rmult_assoc, Rinv_l by lra. lra. }
    lra.
Qed.

Lemma in_zip_zip_map {A B C} (ps : list A) (us : list B) (g : B -> C) p u s :
  In ((p, u), s) (zip (zip ps us) (map g us)) -> s = g u /\ In u us.
Proof.
  revert us. induction ps as [|p0 ps IH]; intros [|u0 us] Hin; simpl in Hin; try done.
  destruct Hin as [[= <- <- <-]|Hin]; [split; [done|by left]|].
  destruct (IH us Hin) as [? ?]. split; [done|by right].
Qed.

(** Every choice share [market_sim] prints lies between 0 and 1, and a
    profile whose total utility is at least another's never gets a lower
    share. (Both survive floating point and the [.1%] rounding of the
    printed share, which are monotone; strict order and positivity do
    not, since [math.exp] underflows to 0.0 and small shares print as
    0.0%.) *)
Theorem market_sim_share_order (utilities : UtilityTable) (profiles : list Profile) :
  Forall (fun row : Profile * R * R => 0 <= row.2 <= 1)%R (market_sim utilities profiles) /\
  forall row1 row2, In row1 (market_sim utilities profiles) -> In row2 (market_sim utilities profiles) ->
    (row1.1.2 <= row2.1.2 -> row1.2 <= row2.2)%R.
Proof.
  unfold market_sim, logit_shares.
  set (us := map (profile_total utilities) profiles).
  set (M := match us with [] => 0%R | u :: us0 => py_max u us0 end).
  rewrite (map_map (fun u => exp (u - M))).
  set (S := py_sum (map (fun u => exp (u - M)) us)).
  assert (HSf : S = fold_right Rplus 0%R (map (fun u => exp (u - M)) us)).
  { unfold S, py_sum. rewrite fold_left_Rplus. lra. }
  assert (Hrow : forall row, In row (zip (zip profiles us)
                   (map (fun u => if Rlt_dec 0 S then (exp (u - M) / S)%R else 0%R) us)) ->
                 row.2 = (exp (row.1.2 - M) / S)%R /\ (0 < S)%R /\ In row.1.2 us).
  { intros [[p u] s] Hin. apply in_zip_zip_map in Hin as [-> Hu]. simpl.
    assert (HS : (0 < S)%R).
    { rewrite HSf. apply Rsum_pos.
      - destruct us; [done|]. discriminate.
      - intros x (v & <- & _)%in_map_iff. apply exp_pos. }
    destruct (Rlt_dec 0 S); [done|lra]. }
  split.
  - apply List.Forall_forall. intros row Hin. destruct (Hrow row Hin) as (-> & HS & Hu).
    assert (He : (0 < exp (row.1.2 - M))%R) by apply exp_pos.
    assert (Hle : (exp (row.1.2 - M) <= S)%R).
    { rewrite HSf. apply Rsum_ge_member.
      - intros y (v & <- & _)%in_map_iff. apply Rlt_le, exp_pos.
      - apply in_map_iff. by exists row.1.2. }
    split.
    + unfold Rdiv. apply Rmult_le_pos; [lra|]. apply Rlt_le, Rinv_0_lt_compat; lra.
    + apply (Rmult_le_reg_r S); [lra|]. unfold Rdiv.
      rewrite Rmult_assoc, Rinv_l by lra. lra.
  - intros row1 row2 H1 H2. destruct (Hrow row1 H1) as (-> & HS & _).
    destruct (Hrow row2 H2) as (-> & _ & _).
    assert (Hi : (0 < / S)%R) by (by apply Rinv_0_lt_compat).
    unfold Rdiv. intros Hle.
    apply Rmult_le_compat_r; [lra|]. destruct Hle as [Hlt|Heq].
    + left. apply exp_increasing. lra.
    + right. by rewrite Heq.
Qed.

(* ================================================================== *)
(** ** Further properties: segment analysis *)

Lemma dict_get_append_same {V} k (x : V) d :
  dict_get k (dict_append k x d) = Some (default [] (dict_get k d) ++ [x]).
Proof.
  induction d as [|[k' vs] d IH]; simpl; [by rewrite decide_True|].
  destruct (decide (k = k')) as [->|Hne]; simpl; [by rewrite !decide_True|].
  by rewrite !decide_False.
Qed.

Lemma dict_get_append_other {V} k v (x : V) d :
  v <> k -> dict_get v (dict_append k x d) = dict_get v d.
Proof.
  intros Hne. induction d as [|[k' vs] d IH]; simpl; [by rewrite decide_False|].
  destruct (decide (k = k')) as [->|Hk]; simpl; [by rewrite !decide_False|].
  destruct (decide (v = k')); [done|]. apply IH.
Qed.

Lemma dict_get_None {V} k (d : list (string * V)) : dict_get k d = None <-> ~ In k (map fst d).
Proof.
  induction d as [|[k' v] d IH]; simpl; [tauto|].
  destruct (decide (k = k')) as [->|Hne]; [split; [done|tauto]|]. rewrite IH. intuition.
Qed.

Lemma keys_append {V} k (x : V) d :
  map fst (dict_append k x d) = if decide (k ∈ map fst d) then map fst d else map fst d ++ [k].
Proof.
  induction d as [|[k' vs] d IH]; simpl; [done|].
  destruct (decide (k = k')) as [->|Hne]; simpl.
  - rewrite decide_True by (apply list_elem_of_In; by left). done.
  - rewrite IH. destruct (decide (k ∈ map fst d)) as [H1|H1].
    + rewrite decide_True by (apply list_elem_of_In; right; by apply list_elem_of_In). done.
    + rewrite decide_False; [done|]. intros [->|?]%list_elem_of_In; [congruence|].
      apply H1. by apply list_elem_of_In.
Qed.

Lemma concat_append {V} k (x : V) d :
  concat (map snd (dict_append k x d)) ≡ₚ concat (map snd d) ++ [x].
Proof.
  induction d as [|[k' vs] d IH]; simpl; [done|].
  destruct (decide (k = k')); simpl.
  - rewrite <- !app_assoc. apply Permutation_app_head. apply Permutation_app_comm.
  - rewrite <- app_assoc. by apply Permutation_app_head.
Qed.

Lemma dict_get_In {V} k (v : V) d : NoDup (map fst d) -> In (k, v) d -> dict_get k d = Some v.
Proof.
  induction d as [|[k' v'] d IH]; intros Hnd Hin; [done|]. simpl in *.
  apply NoDup_cons in Hnd as [Hk Hnd].
  destruct Hin as [[= -> ->]|Hin]; [by rewrite decide_True|].
  rewrite decide_False; [by apply IH|]. intros ->. apply Hk, list_elem_of_In.
  apply in_map_iff. by exists (k', v).
Qed.

Lemma segment_groups_inv trait (l : list ChoiceRecord) groups :
  NoDup (map fst groups) /\
  (forall v, dict_get v groups =
     if decide (filter (fun r => trait_value trait r = v) l = []) then None
     else Some (filter (fun r => trait_value trait r = v) l)) /\
  concat (map snd groups) ≡ₚ l ->
  forall rest,
  let groups' := fold_left (fun gs rec => dict_append (trait_value trait rec) rec gs) rest groups in
  NoDup (map fst groups') /\
  (forall v, dict_get v groups' =
     if decide (filter (fun r => trait_value trait r = v) (l ++ rest) = []) then None
     else Some (filter (fun r => trait_value trait r = v) (l ++ rest))) /\
  concat (map snd groups') ≡ₚ l ++ rest.
Proof.
  intros Hinv rest. revert l groups Hinv. induction rest as [|x rest IH]; intros l groups Hinv.
  { simpl. by rewrite app_nil_r. }
  simpl. replace (l ++ x :: rest) with ((l ++ [x]) ++ rest) by by rewrite <- app_assoc.
  apply IH. destruct Hinv as (Hnd & Hget & Hperm). split; [|split].
  - rewrite keys_append. destruct (decide _); [done|].
    apply NoDup_app. split; [done|]. split; [|apply NoDup_singleton].
    intros y Hy ->%list_elem_of_singleton. by apply n.
  - intros v. rewrite filter_app. destruct (decide (v = trait_value trait x)) as [->|Hne].
    + rewrite dict_get_append_same, Hget. rewrite filter_cons_True by done. simpl.
      rewrite filter_nil.
      destruct (decide (filter _ l ++ [x] = [])) as [[_ ?]%app_eq_nil|_]; [discriminate|].
      by destruct (decide (filter _ l = [])) as [->|].
    + rewrite dict_get_append_other by done. rewrite Hget.
      rewrite filter_cons_False by congruence. simpl. by rewrite app_nil_r.
  - rewrite concat_append. by apply Permutation_app_tail.
Qed.

Lemma segment_groups_spec (trait : string) (records : list ChoiceRecord) :
  NoDup (map fst (segment_groups trait records)) /\
  (forall v grp, In (v, grp) (segment_groups trait records) ->
     grp <> [] /\ grp = filter (fun r => trait_value trait r = v) records) /\
  concat (map snd (segment_groups trait records)) ≡ₚ records.
Proof.
  assert (H0 : NoDup (map fst (@nil (string * list ChoiceRecord))) /\
    (forall v, dict_get v (@nil (string * list ChoiceRecord)) =
       if decide (filter (fun r => trait_value trait r = v) [] = []) then None
       else Some (filter (fun r => trait_value trait r = v) [])) /\
    concat (map snd (@nil (string * list ChoiceRecord))) ≡ₚ []).
  { split; [constructor|]. split; [|done]. intros v. simpl. try (rewrite decide_True by done). done. }
  destruct (segment_groups_inv trait [] [] H0 records) as (Hnd & Hget & Hperm).
  simpl in *. unfold segment_groups. split; [done|]. split; [|done].
  intros v grp Hin. pose proof (dict_get_In _ _ _ Hnd Hin) as Hg. rewrite Hget in Hg.
  destruct (decide _); [done|]. by injection Hg as <-.
Qed.

(** In [analyze], the groups of one trait split the records: the group
    values are distinct, each group holds, in their order, exactly the
    records with that value ("unknown" when a record lacks the trait),
    and the groups together are a permutation of the records. *)
Theorem segment_groups_partition (trait : string) (records : list ChoiceRecord) :
  NoDup (map fst (segment_groups trait records)) /\
  (forall v grp, In (v, grp) (segment_groups trait records) ->
     grp <> [] /\ grp = filter (fun r => trait_value trait r = v) records) /\
  concat (map snd (segment_groups trait records)) ≡ₚ records.
Proof. exact (segment_groups_spec trait records). Qed.

Lemma rmap_Forall2 {A B} (f : A -> result B) (P : A -> B -> Prop) (l : list A) :
  (forall x, In x l -> exists y, f x = Ok y /\ P x y) ->
  exists ys, rmap f l = Ok ys /\ Forall2 P l ys.
Proof.
  induction l as [|x l IH]; intros Hf; [by exists []|].
  destruct (Hf x (or_introl eq_refl)) as (y & Hy & Hp).
  destruct IH as (ys & Hys & Hps); [intros z Hz; apply Hf; by right|].
  exists (y :: ys). simpl. rewrite Hy, Hys. split; [done|]. by constructor.
Qed.

Lemma compute_utilities_ok_any (records : list ChoiceRecord) (attributes : AttrSpec) :
  (forall a, ~ In (a, []) attributes) -> exists u, compute_utilities records attributes = Ok u.
Proof.
  intros Hne. unfold compute_utilities.
  destruct (utilities_fold_errors (count_chosen records attributes) (total_choices records)
              attributes []) as [H1 H2].
  destruct (rfold_left _ attributes []) as [u|e] eqn:E; [by exists u|].
  exfalso. pose proof (H2 e eq_refl) as ->. destruct (proj1 H1 eq_refl) as [a Ha]. by apply (Hne a).
Qed.

Lemma Forall2_map_r {A B C} (P : A -> B -> Prop) (g : B -> C) (h : A -> C) l1 l2 :
  Forall2 P l1 l2 -> (forall x y, P x y -> g y = h x) -> map g l2 = map h l1.
Proof. induction 1; intros Hgh; simpl; [done|]. f_equal; auto. Qed.

Lemma Zsum_length {A} (ls : list (list A)) :
  fold_right Z.add 0 (map (fun l => Z.of_nat (length l)) ls) = Z.of_nat (length (concat ls)).
Proof. induction ls as [|l ls IH]; simpl; [done|]. rewrite IH, length_app. lia. Qed.

(** When no attribute is without levels, the segment analysis of
    [analyze] raises nothing; it has one entry per trait name that some
    record has, each once, and for every trait the [n_observations] of
    its groups add up to the number of records. *)
Theorem segment_results_counts (records : list ChoiceRecord) (attributes : AttrSpec) :
  (forall a, ~ In (a, []) attributes) ->
  exists segs, segment_results records attributes = Ok segs /\
    NoDup (map fst segs) /\
    (forall t, In t (map fst segs) <-> exists r, In r records /\ is_Some (agent_traits r !! t)) /\
    forall t gs, In (t, gs) segs ->
      fold_right Z.add 0 (map (fun g => g.2.2) gs) = Z.of_nat (length records).
Proof.
  intros Hne. unfold segment_results.
  destruct (rmap_Forall2
              (fun trait =>
                 let? trait_results := rmap (group_result attributes) (segment_groups trait records) in
                 Ok (trait, trait_results))
              (fun trait (tr : string * list (string * (UtilityTable * list (string * R) * Z))) =>
                 tr.1 = trait /\
                 Forall2 (fun g r => r.2.2 = Z.of_nat (length g.2)) (segment_groups trait records) tr.2)
              (segment_traits records)) as (segs & Hsegs & HP).
  { intros trait _.
    destruct (rmap_Forall2 (group_result attributes)
                (fun g r => r.2.2 = Z.of_nat (length g.2)) (segment_groups trait records))
      as (trs & Htrs & Hps).
    { intros [v grp] _. simpl.
      destruct (compute_utilities_ok_any grp attributes Hne) as [u ->]. simpl.
      by eexists. }
    rewrite Htrs. simpl. by eexists. }
  exists segs. split; [done|].
  assert (Hkeys : map fst segs = map (fun x : string => x) (segment_traits records)).
  { apply (Forall2_map_r _ fst (fun x : string => x) _ _ HP). by intros x y [-> _]. }
  rewrite map_id in Hkeys.
  rewrite Hkeys. unfold segment_traits. split; [|split].
  - rewrite (merge_sort_Permutation _ _). apply NoDup_elements.
  - intros t. rewrite <- list_elem_of_In.
    rewrite (elem_of_Permutation_proper _ _ _ (merge_sort_Permutation _ _)).
    rewrite elem_of_elements, elem_of_union_list. split.
    + intros (X & HX & Ht). apply list_elem_of_In, in_map_iff in HX as (r & <- & Hr).
      exists r. split; [done|]. by apply elem_of_dom.
    + intros (r & Hr & Ht). exists (dom (agent_traits r)). split; [|by apply elem_of_dom].
      apply list_elem_of_In, in_map_iff. by exists r.
  - intros t gs Hin.
    destruct (Forall2_in_r _ _ _ _ HP Hin) as (trait & _ & _ & Hgs). simpl in Hgs.
    rewrite (Forall2_map_r _ (fun g => g.2.2) (fun g => Z.of_nat (length g.2)) _ _ Hgs)
      by (intros ? ? ->; done).
    rewrite <- map_map with (f := snd) (g := fun l => Z.of_nat (length l)).
    rewrite Zsum_length.
    destruct (segment_groups_spec trait records) as (_ & _ & Hp).
    by rewrite (Permutation_length Hp).
Qed.

Lemma segment_results_counts_witness :
  (forall a, ~ In (a, []) example_attributes) /\
  exists segs,
    segment_results
      [{| rec_task := 1; chosen_profile := Some (example_profile "low" "X");
          agent_traits := {["segment" := "young"]} |};
       {| rec_task := 1; chosen_profile := None; agent_traits := ∅ |}] example_attributes = Ok segs /\
    NoDup (map fst segs) /\
    (forall t, In t (map fst segs) <->
       exists r, In r [{| rec_task := 1; chosen_profile := Some (example_profile "low" "X");
                          agent_traits := {["segment" := "young"]} |};
                       {| rec_task := 1; chosen_profile := None; agent_traits := ∅ |}] /\
                 is_Some (agent_traits r !! t)) /\
    forall t gs, In (t, gs) segs -> fold_right Z.add 0 (map (fun g => g.2.2) gs) = 2.
Proof.
  assert (Hne : forall a, ~ In (a, []) example_attributes)
    by (intros a [H|[H|[]]]; discriminate).
  split; [exact Hne|].
  exact (segment_results_counts _ example_attributes Hne).
Defined.

(* ================================================================== *)
(** ** Further properties: results parser *)

Lemma substring_full (s : string) : String.substring 0 (String.length s) s = s.
Proof. induction s as [|c s IH]; simpl; [done|]. by rewrite IH. Qed.

Lemma prefix_append_self (p s : string) : String.prefix p (String.append p s) = true.
Proof.
  induction p as [|c p IH]; simpl; [by destruct s|].
  destruct (ascii_dec c c); [done|congruence].
Qed.

Lemma prefix_split (p s : string) :
  String.prefix p s = true ->
  s = String.append p (String.substring (String.length p) (String.length s - String.length p) s).
Proof.
  revert s. induction p as [|c p IH]; intros s Hp; simpl.
  - rewrite Nat.sub_0_r. by rewrite substring_full.
  - destruct s as [|c' s]; [done|]. simpl in Hp.
    destruct (ascii_dec c c') as [<-|]; [|done].
    change (String c s = String c (String.append p
              (String.substring (String.length p) (String.length s - String.length p) s))).
    f_equal. by apply IH.
Qed.

Lemma substring_after (p k : string) :
  String.substring (String.length p) (String.length (String.append p k) - String.length p)
    (String.append p k) = k.
Proof.
  induction p as [|c p IH]; simpl; [rewrite Nat.sub_0_r; apply substring_full|]. done.
Qed.

Lemma append_inj_l (p k1 k2 : string) : String.append p k1 = String.append p k2 -> k1 = k2.
Proof. induction p as [|c p IH]; simpl; [done|]. intros [= H]. auto. Qed.

(** What the fold of [row_agent_traits] adds to [traits]. *)
Lemma row_agent_traits_fold (row : CsvRow) (traits : gmap string string) k :
  NoDup (map fst row) ->
  fold_left
    (fun traits (kv : string * string) =>
       if String.prefix "agent." kv.1
       then <[String.substring 6 (String.length kv.1 - 6) kv.1 := kv.2]> traits
       else traits)
    row traits !! k
  = match dict_get (String.append "agent." k) row with
    | Some v => Some v
    | None => traits !! k
    end.
Proof.
  revert traits. induction row as [|[key v] row IH]; intros traits Hnd; simpl; [done|].
  apply NoDup_cons in Hnd as [Hkey Hnd]. simpl in Hkey.
  rewrite IH by done.
  destruct (decide (String.append "agent." k = key)) as [<-|Hne].
  - rewrite prefix_append_self.
    replace (String.substring 6 _ _) with k by (symmetry; exact (substring_after "agent." k)).
    rewrite lookup_insert_eq.
    destruct (dict_get (String.append "agent." k) row) eqn:E; [|done].
    assert (dict_get (String.append "agent." k) row = None)
      by (apply dict_get_None; intros Hin; by apply Hkey, list_elem_of_In).
    congruence.
  - destruct (String.prefix "agent." key) eqn:Hp; [|done].
    destruct (dict_get _ row); [done|]. rewrite lookup_insert_ne; [done|].
    intros Hk. apply Hne. rewrite (prefix_split _ _ Hp). simpl String.length. by rewrite Hk.
Qed.

(** The agent traits [_parse_results_csv] attaches to the records of a
    row: trait [k] is the row's column [agent.k], and nothing else. *)
Theorem row_agent_traits_lookup (row : CsvRow) (k : string) :
  NoDup (map fst row) ->
  row_agent_traits row !! k = dict_get (String.append "agent." k) row.
Proof.
  intros Hnd. unfold row_agent_traits. rewrite row_agent_traits_fold by done.
  by destruct (dict_get _ row).
Qed.

Lemma row_profile_lookup (attributes : AttrSpec) (row : CsvRow) t opt_key a :
  row_profile attributes row t opt_key !! a
  = if decide (a ∈ map fst attributes) then dict_get (scenario_column t opt_key a) row
    else None.
Proof.
  unfold row_profile.
  assert (H : forall names (m : Profile),
    fold_left (fun prof attr_name =>
       match dict_get (scenario_column t opt_key attr_name) row with
       | Some v => <[attr_name := v]> prof
       | None => prof
       end) names m !! a
    = if decide (a ∈ names) then
        match dict_get (scenario_column t opt_key a) row with Some v => Some v | None => m !! a end
      else m !! a).
  { induction names as [|n names IH]; intros m; simpl; [done|]. rewrite IH.
    destruct (decide (n = a)) as [->|Hne].
    - rewrite (decide_True (P := a ∈ a :: names)) by set_solver.
      destruct (decide (a ∈ names));
        destruct (dict_get (scenario_column t opt_key a) row) eqn:E; rewrite ?E;
        rewrite ?lookup_insert_eq; done.
    - destruct (dict_get (scenario_column t opt_key n) row);
        [rewrite lookup_insert_ne by done|];
        (destruct (decide (a ∈ names)) as [Hi|Hi];
         [rewrite decide_True by set_solver; done
         |rewrite decide_False by set_solver; done]). }
  rewrite H, lookup_empty. destruct (decide _); [|done]. by destruct (dict_get _ row).
Qed.

Lemma first_index_lt {A} (f : A -> bool) (l : list A) i :
  first_index f l = Some i -> (i < length l)%nat.
Proof.
  revert i. induction l as [|x l IH]; intros i; simpl; [done|].
  destruct (f x); [intros [= <-]; lia|].
  destruct (first_index f l) as [j|] eqn:E; simpl; [|done]. intros [= <-].
  specialize (IH j eq_refl). lia.
Qed.

Lemma in_task_numbers n t : In t (task_numbers n) -> 1 <= t <= n.
Proof.
  unfold task_numbers. intros (i & <- & Hi)%in_map_iff. apply in_seq in Hi. lia.
Qed.

(** Every record [_parse_results_csv] returns comes from one row: it
    carries that row's agent traits, its task number lies between 1 and
    [n_tasks], a "none" choice appears only when [include_none] is true,
    and a chosen profile is non-empty and is, for one option letter among
    the first [profiles_per_task], exactly the row's scenario columns of
    that task and option for the design's attributes. *)
Theorem parse_results_rows_records (spec : ResultsSpec) (rows : list CsvRow) (r : ChoiceRecord) :
  In r (parse_results_rows spec rows) ->
  exists row, In row rows /\ agent_traits r = row_agent_traits row /\
    1 <= rec_task r <= get_or (rs_n_tasks spec) (get_or (rs_tasks_per_version spec) 8) /\
    match chosen_profile r with
    | None => rs_include_none spec = Some true
    | Some p =>
        p <> ∅ /\
        exists i, (i < Z.to_nat (get_or (rs_profiles_per_task spec) 3%Z))%nat /\
          forall a, p !! a =
            if decide (a ∈ map fst (rs_attributes spec))
            then dict_get (scenario_column (rec_task r) (chr_add "a" i) a) row else None
    end.
Proof.
  unfold parse_results_rows. intros (l & Hl & Hr)%in_concat.
  apply in_map_iff in Hl as (row & <- & Hrow).
  apply list_elem_of_In, list_elem_of_omap in Hr as (t & Ht & Hrec).
  apply list_elem_of_In, in_task_numbers in Ht.
  exists row. unfold task_record in Hrec.
  destruct (String.eqb _ "") eqn:Hblank; [done|].
  destruct (default false (rs_include_none spec) && _) eqn:Hnone.
  { injection Hrec as <-. simpl. split; [done|]. split; [done|]. split; [done|].
    apply andb_true_iff in Hnone as [Hin _].
    by destruct (rs_include_none spec) as [[]|]. }
  destruct (first_index _ _) as [i|] eqn:Hi; [|done].
  destruct (decide _) as [|Hne]; [done|].
  injection Hrec as <-. simpl. split; [done|]. split; [done|]. split; [done|].
  split; [done|]. exists i. split.
  - apply first_index_lt in Hi. unfold option_labels in Hi.
    by rewrite length_map, length_seq in Hi.
  - intros a. apply row_profile_lookup.
Qed.

Lemma row_agent_traits_lookup_witness :
  NoDup (map fst example_row) /\
  row_agent_traits example_row !! "segment" = dict_get (String.append "agent." "segment") example_row.
Proof.
  assert (Hnd : NoDup (map fst example_row)) by solve_nodup.
  split; [exact Hnd|]. exact (row_agent_traits_lookup example_row "segment" Hnd).
Defined.

Lemma parse_results_rows_records_witness :
  exists r, In r (parse_results_rows example_results_spec [example_row]) /\
  exists row, In row [example_row] /\ agent_traits r = row_agent_traits row /\
    1 <= rec_task r <= get_or (rs_n_tasks example_results_spec)
                         (get_or (rs_tasks_per_version example_results_spec) 8) /\
    match chosen_profile r with
    | None => rs_include_none example_results_spec = Some true
    | Some p =>
        p <> ∅ /\
        exists i, (i < Z.to_nat (get_or (rs_profiles_per_task example_results_spec) 3%Z))%nat /\
          forall a, p !! a =
            if decide (a ∈ map fst (rs_attributes example_results_spec))
            then dict_get (scenario_column (rec_task r) (chr_add "a" i) a) row else None
    end.
Proof.
  lazymatch eval vm_compute in (parse_results_rows example_results_spec [example_row]) with
  | ?r :: _ =>
      assert (Hin : In r (parse_results_rows example_results_spec [example_row]))
        by (vm_compute; left; reflexivity);
      exists r; split; [exact Hin|];
      exact (parse_results_rows_records example_results_spec [example_row] r Hin)
  end.
Defined.
